(** * LesserPanda engine: fixed-step scheduler and physics core

    A shallow embedding of [engine/game.js] ([Game.prototype.run]) and of the
    physics module ([World], [CollisionSolver], [Body], [Rectangle],
    [Circle]), with the properties the specification states about them.

    Numbers.  JavaScript numbers are modelled as exact rationals ([Qc], the
    canonical rationals, whose equality is Leibniz equality).  Rounding,
    [NaN] and the infinities of IEEE doubles are outside that model; the
    inputs of its counterexamples are small integers and halves, on which
    double arithmetic is exact.  The module [Doubles] repeats the rectangle
    branches of the solver over IEEE doubles, to show what rounding changes.
    Counters ([count], [spiraling]) and collision-group numbers are integers
    ([Z]).

    Objects.  Bodies and worlds are objects with identity: they live in a
    store indexed by references, and a method that mutates an object
    returns the updated store.  A JavaScript exception is the result
    [Throw TypeError]. *)

From Stdlib Require Import QArith Qcanon Qcabs Qround Lqa ZArith Lia.
From Stdlib Require Floats.
From stdpp Require Import base decidable option numbers list sorting gmap.

Local Open Scope Z_scope.
Local Open Scope Qc_scope.

(** ** Numbers *)

(** An integer literal of the source, as a number. *)
Definition num (z : Z) : Qc := Qc_of_Z z.

(** [Math.max] and [Math.min] on two arguments. *)
Definition Math_max (a b : Qc) : Qc := if decide (a ≤ b) then b else a.
Definition Math_min (a b : Qc) : Qc := if decide (a ≤ b) then a else b.

(** Modelled from the spec: [Math.clamp] is an extension of [Math] that the
    engine installs outside the given sources; the spec describes it as
    clamping a value into the closed interval [[lo, hi]]. *)
Definition Math_clamp (v lo hi : Qc) : Qc :=
  if decide (v < lo) then lo else if decide (hi < v) then hi else v.

(** The functions of [Math] that leave the rationals are parameters of the
    development. *)
Class MathLib := {
  Math_sqrt : Qc → Qc;
  Math_pow : Qc → Qc → Qc;
  Math_cos : Qc → Qc;
  Math_sin : Qc → Qc;
  Math_atan2 : Qc → Qc → Qc
}.

(** A computable instance, used to run the model on concrete inputs: the
    integer square root of the integer part (exact on the perfect squares),
    powers with a natural exponent, and constants for the trigonometric
    functions. *)
Definition sqrt_exact (q : Qc) : Qc := num (Z.sqrt (Qfloor (this q))).

Definition pow_nat (b e : Qc) : Qc :=
  match Qnum (this e), Qden (this e) with
  | Z.neg _, _ => 1
  | n, 1%positive => Qcpower b (Z.to_nat n)
  | _, _ => 1
  end.

Definition sample_math : MathLib :=
  {| Math_sqrt := sqrt_exact;
     Math_pow := pow_nat;
     Math_cos := fun _ => 1;
     Math_sin := fun _ => 0;
     Math_atan2 := fun _ _ => 0 |}.

(** Linear arithmetic over [Qc], through [Q]. *)
Lemma Qc_eq_Qeq (a b : Qc) : a = b → (this a == this b)%Q.
Proof. intros ->. reflexivity. Qed.

Lemma Qc_neq_Qeq (a b : Qc) : a ≠ b → ¬ (this a == this b)%Q.
Proof. intros Hne Heq. apply Hne, Qc_is_canon, Heq. Qed.

Ltac qc_to_q :=
  unfold Qcle, Qclt, Qcdiv, Qcminus, num, Qc_of_Z in *;
  repeat match goal with
  | H : @eq Qc _ _ |- _ => apply Qc_eq_Qeq in H
  | H : not (@eq Qc _ _) |- _ => apply Qc_neq_Qeq in H
  | |- @eq Qc _ _ => apply Qc_is_canon
  end;
  cbn [this Qcplus Qcmult Qcopp Qcinv Q2Qc] in *;
  rewrite ?Qred_correct in *;
  unfold inject_Z in *;
  cbn [Qinv Qnum Qden] in *.

Ltac qc_lra := qc_to_q; lra.

Lemma num_nat_0 : num (Z.of_nat 0) = 0.
Proof. apply Z2Qc_inj_0. Qed.

Lemma num_succ (n : nat) : num (Z.of_nat (S n)) = num (Z.of_nat n) + 1.
Proof.
  unfold num. rewrite Nat2Z.inj_succ, <- Z.add_1_r, Z2Qc_inj_add.
  by rewrite Z2Qc_inj_1.
Qed.

(** ** The fixed-step scheduler ([engine/game.js]) *)

Module Game.

(** [this.updateInfo].  [slowStepSec] is not part of the object literal of
    the constructor: it is [undefined] until the first tick that takes the
    catch-up branch. *)
Record UpdateInfo := {
  spiraling : Z;
  last : Qc;
  realDelta : Qc;
  deltaTime : Qc;
  info_desiredFPS : Qc;
  lastCount : Z;
  step : Qc;
  slowStep : Qc;
  count : Z;
  slowStepSec : option Qc
}.

(** The two callbacks of a game, recorded in the order they are invoked. *)
Inductive Callback :=
| FixedUpdate (delta : Qc) (deltaSec : option Qc)
| Update (delta deltaSec : Qc).

(** A game: [desiredFPS], [updateInfo], and the log of the callbacks invoked
    so far (the systems and the event emitter behind [fixedUpdate] and
    [update] are not modelled further). *)
Record t := {
  desiredFPS : Qc;
  updateInfo : UpdateInfo;
  calls : list Callback
}.

(** [function Game()]. *)
Definition new : t :=
  {| desiredFPS := num 60;
     updateInfo :=
       {| spiraling := 0; last := - num 1; realDelta := 0; deltaTime := 0;
          info_desiredFPS := num 30; lastCount := 0; step := 0; slowStep := 0;
          count := 0; slowStepSec := None |};
     calls := [] |}.

Definition set_spiraling (v : Z) (u : UpdateInfo) : UpdateInfo :=
  {| spiraling := v; last := last u; realDelta := realDelta u;
     deltaTime := deltaTime u; info_desiredFPS := info_desiredFPS u;
     lastCount := lastCount u; step := step u; slowStep := slowStep u;
     count := count u; slowStepSec := slowStepSec u |}.

Definition set_last (v : Qc) (u : UpdateInfo) : UpdateInfo :=
  {| spiraling := spiraling u; last := v; realDelta := realDelta u;
     deltaTime := deltaTime u; info_desiredFPS := info_desiredFPS u;
     lastCount := lastCount u; step := step u; slowStep := slowStep u;
     count := count u; slowStepSec := slowStepSec u |}.

Definition set_realDelta (v : Qc) (u : UpdateInfo) : UpdateInfo :=
  {| spiraling := spiraling u; last := last u; realDelta := v;
     deltaTime := deltaTime u; info_desiredFPS := info_desiredFPS u;
     lastCount := lastCount u; step := step u; slowStep := slowStep u;
     count := count u; slowStepSec := slowStepSec u |}.

Definition set_deltaTime (v : Qc) (u : UpdateInfo) : UpdateInfo :=
  {| spiraling := spiraling u; last := last u; realDelta := realDelta u;
     deltaTime := v; info_desiredFPS := info_desiredFPS u;
     lastCount := lastCount u; step := step u; slowStep := slowStep u;
     count := count u; slowStepSec := slowStepSec u |}.

Definition set_lastCount (v : Z) (u : UpdateInfo) : UpdateInfo :=
  {| spiraling := spiraling u; last := last u; realDelta := realDelta u;
     deltaTime := deltaTime u; info_desiredFPS := info_desiredFPS u;
     lastCount := v; step := step u; slowStep := slowStep u;
     count := count u; slowStepSec := slowStepSec u |}.

Definition set_count (v : Z) (u : UpdateInfo) : UpdateInfo :=
  {| spiraling := spiraling u; last := last u; realDelta := realDelta u;
     deltaTime := deltaTime u; info_desiredFPS := info_desiredFPS u;
     lastCount := lastCount u; step := step u; slowStep := slowStep u;
     count := v; slowStepSec := slowStepSec u |}.

(** The three assignments that open the catch-up branch. *)
Definition set_steps (st sl sls : Qc) (u : UpdateInfo) : UpdateInfo :=
  {| spiraling := spiraling u; last := last u; realDelta := realDelta u;
     deltaTime := deltaTime u; info_desiredFPS := info_desiredFPS u;
     lastCount := lastCount u; step := st; slowStep := sl;
     count := count u; slowStepSec := Some sls |}.

(** The loop
    [while (deltaTime >= step) { deltaTime -= step; fixedUpdate(..); count += 1 }].
    The loop need not terminate (a [step] that is not positive), so the
    model takes fuel: [None] is "more than [fuel] iterations". *)
Fixpoint catch_up (fuel : nat) (u : UpdateInfo) (log : list Callback)
  : option (UpdateInfo * list Callback) :=
  if decide (step u ≤ deltaTime u) then
    match fuel with
    | O => None
    | S fuel' =>
        let u1 := set_deltaTime (deltaTime u - step u) u in
        let log1 := log ++ [FixedUpdate (slowStep u1) (slowStepSec u1)] in
        catch_up fuel' (set_count (count u1 + 1) u1) log1
    end
  else Some (u, log).

(** The spiral detection that follows the loop. *)
Definition detect_spiral (u : UpdateInfo) : UpdateInfo :=
  let u1 :=
    if decide (lastCount u < count u)%Z then set_spiraling (spiraling u + 1) u
    else if decide (count u < lastCount u)%Z then set_spiraling 0 u
    else u in
  set_lastCount (count u1) u1.

(** [Game.prototype.run], with [core.speed] as the argument [speed].  A
    [desiredFPS] of zero, for which the source computes with [Infinity], is
    outside the model. *)
Definition run (fuel : nat) (speed : Qc) (g : t) (timestamp : Qc) : option t :=
  let u0 := updateInfo g in
  let u1 := if decide (0 < last u0)
            then set_realDelta (timestamp - last u0) u0 else u0 in
  let u2 := set_last timestamp u1 in
  let idle (u : UpdateInfo) (log : list Callback) : t :=
    {| desiredFPS := desiredFPS g;
       updateInfo := u;
       calls := log ++ [Update (realDelta u) (realDelta u * (1 / num 1000))] |} in
  if decide (1 < spiraling u2)%Z then
    Some (idle (set_spiraling 0 (set_deltaTime 0 u2)) (calls g))
  else
    let st := num 1000 / desiredFPS g in
    let u3 := set_steps st (st * speed) (st * (1 / num 1000) * speed) u2 in
    let credit := Math_max (Math_min (step u3 * num 3) (realDelta u3)) 0 in
    let u4 := set_count 0 (set_deltaTime (deltaTime u3 + credit) u3) in
    match catch_up fuel u4 (calls g) with
    | None => None
    | Some (u5, log) => Some (idle (detect_spiral u5) log)
    end.

(** The real time a tick at [timestamp] sees: [realDelta] after the first
    statement of [run]. *)
Definition elapsed (g : t) (timestamp : Qc) : Qc :=
  if decide (0 < last (updateInfo g))
  then timestamp - last (updateInfo g) else realDelta (updateInfo g).

(** Number of [fixedUpdate] invocations in a log. *)
Definition is_fixedUpdate (c : Callback) : bool :=
  match c with FixedUpdate _ _ => true | Update _ _ => false end.

Definition fixed_updates (log : list Callback) : nat :=
  length (filter (λ c, is_fixedUpdate c) log).

(** *** Runs of the scheduler *)

(** [game.desiredFPS = fps]. *)
Definition set_desiredFPS (fps : Qc) (g : t) : t :=
  {| desiredFPS := fps; updateInfo := updateInfo g; calls := calls g |}.

(** The games a run of the scheduler can be in: a new game, ticked any
    number of times, with [desiredFPS] set to any non-zero value between
    ticks. *)
Inductive reachable : t → Prop :=
| reach_new : reachable new
| reach_fps g fps : reachable g → fps ≠ 0 → reachable (set_desiredFPS fps g)
| reach_run g fuel speed timestamp g' :
    reachable g → run fuel speed g timestamp = Some g' → reachable g'.

(** Between ticks the two counters agree and the spiral counter is not
    negative. *)
Definition counters_ok (u : UpdateInfo) : Prop :=
  count u = lastCount u ∧ (0 ≤ spiraling u)%Z.

(** *** The catch-up loop *)

(** What the loop has done when it exits after [n] iterations. *)
Lemma catch_up_inv fuel u log u' log' :
  catch_up fuel u log = Some (u', log') →
  ∃ n : nat,
    (n ≤ fuel)%nat ∧
    count u' = (count u + Z.of_nat n)%Z ∧
    deltaTime u' = deltaTime u - num (Z.of_nat n) * step u ∧
    deltaTime u' < step u ∧
    (n = 0%nat ∨ 0 ≤ deltaTime u') ∧
    step u' = step u ∧ spiraling u' = spiraling u ∧
    lastCount u' = lastCount u ∧ last u' = last u ∧
    realDelta u' = realDelta u ∧
    log' = log ++ replicate n (FixedUpdate (slowStep u) (slowStepSec u)).
Proof.
  revert u log. induction fuel as [|fuel IH]; intros u log Hrun.
  - simpl in Hrun. destruct (decide (step u ≤ deltaTime u)) as [Hge|Hlt]; [done|].
    injection Hrun as <- <-. exists 0%nat.
    apply Qcnot_le_lt in Hlt.
    repeat split; auto; try lia.
    + rewrite num_nat_0. ring.
    + simpl. by rewrite app_nil_r.
  - simpl in Hrun. destruct (decide (step u ≤ deltaTime u)) as [Hge|Hlt].
    + apply IH in Hrun as (n & Hn & Hc & Hd & Hex & Hpos & Hs & Hsp & Hl & Hla & Hr & Hlog).
      simpl in *. exists (S n).
      repeat split; auto; try lia.
      * rewrite Hd, num_succ. ring.
      * right. destruct Hpos as [-> | Hpos]; [|done].
        rewrite Hd, num_nat_0.
        clear -Hge. qc_lra.
      * rewrite Hlog, <- app_assoc. done.
    + injection Hrun as <- <-. exists 0%nat.
      apply Qcnot_le_lt in Hlt.
      repeat split; auto; try lia.
      * rewrite num_nat_0. ring.
      * simpl. by rewrite app_nil_r.
Qed.

(** With a positive step, [n] units of fuel are enough as soon as the
    accumulator is below [n] steps. *)
Lemma catch_up_enough_fuel (n : nat) u log :
  0 < step u → deltaTime u < num (Z.of_nat n) * step u →
  is_Some (catch_up n u log).
Proof.
  revert u log. induction n as [|n IH]; intros u log Hstep Hlt.
  - simpl. destruct (decide (step u ≤ deltaTime u)) as [Hge|]; [|done].
    exfalso. rewrite num_nat_0 in Hlt. clear -Hstep Hlt Hge. qc_lra.
  - simpl. destruct (decide (step u ≤ deltaTime u)) as [Hge|]; [|done].
    apply IH; simpl; [done|].
    rewrite num_succ in Hlt. clear -Hlt.
    generalize dependent (num (Z.of_nat n)). intros k Hlt. qc_lra.
Qed.

Lemma fixed_updates_fixed d ds (l : list Callback) :
  fixed_updates (FixedUpdate d ds :: l) = S (fixed_updates l).
Proof. unfold fixed_updates. by rewrite filter_cons_True. Qed.

Lemma fixed_updates_idle d ds (l : list Callback) :
  fixed_updates (Update d ds :: l) = fixed_updates l.
Proof. unfold fixed_updates. rewrite filter_cons_False; [done|]. simpl. tauto. Qed.

Lemma fixed_updates_replicate (n : nat) d ds :
  fixed_updates (replicate n (FixedUpdate d ds)) = n.
Proof.
  induction n as [|n IH]; [done|].
  cbn [replicate]. by rewrite fixed_updates_fixed, IH.
Qed.

Lemma fixed_updates_app (l1 l2 : list Callback) :
  fixed_updates (l1 ++ l2) = (fixed_updates l1 + fixed_updates l2)%nat.
Proof. unfold fixed_updates. by rewrite filter_app, length_app. Qed.

(** *** Catch-up bound *)

(** C4. With [desiredFPS = 60], an accumulator below one step
    ([1000 / 60] ms) and a tick that sees [realDelta = 1000] ms, [run]
    returns (four units of fuel are enough) and the callbacks it adds to the
    log contain at most three [fixedUpdate] invocations: the credit added to
    the accumulator is capped at [step * 3]. *)
Theorem run_catch_up_bound (speed : Qc) (g : t) (timestamp : Qc) :
  desiredFPS g = num 60 →
  deltaTime (updateInfo g) < num 1000 / num 60 →
  elapsed g timestamp = num 1000 →
  (∃ g', run 4 speed g timestamp = Some g') ∧
  ∀ fuel g', run fuel speed g timestamp = Some g' →
    ∃ new, calls g' = calls g ++ new ∧ (fixed_updates new ≤ 3)%nat.
Proof.
  intros Hfps Hacc Hreal.
  unfold run. rewrite Hfps.
  set (u1 := if decide (0 < last (updateInfo g)) then _ else _).
  assert (Hd1 : deltaTime u1 = deltaTime (updateInfo g)).
  { subst u1. by destruct (decide _). }
  assert (Hr1 : realDelta u1 = num 1000).
  { subst u1. unfold elapsed in Hreal. by destruct (decide _). }
  destruct (decide (1 < spiraling (set_last timestamp u1))%Z) as [Hsp|Hsp].
  { split; [eauto|]. intros _ g' [= <-]. simpl.
    eexists. split; [done|]. rewrite fixed_updates_idle.
    unfold fixed_updates. simpl. lia. }
  set (u4 := set_count 0 _).
  assert (Hstep : step u4 = num 1000 / num 60) by done.
  assert (Hpos : 0 < step u4) by (rewrite Hstep; by vm_compute).
  assert (Hd4 : deltaTime u4 < num 4 * step u4).
  { subst u4. cbn [deltaTime set_count set_deltaTime set_steps set_last
                   step realDelta].
    rewrite Hd1, Hr1.
    replace (Math_max (Math_min (num 1000 / num 60 * num 3) (num 1000)) 0)
      with (num 50) by (apply Qc_is_canon; by vm_compute).
    clear -Hacc. qc_lra. }
  split.
  - destruct (catch_up_enough_fuel 4 u4 (calls g) Hpos) as [[u5 log] Hrun];
      [done|].
    rewrite Hrun. eauto.
  - intros fuel g' Hrun.
    destruct (catch_up fuel u4 (calls g)) as [[u5 log]|] eqn:Hloop; [|done].
    injection Hrun as <-. cbn [calls].
    apply catch_up_inv in Hloop
      as (n & _ & _ & Hd & _ & Hnn & _ & _ & _ & _ & _ & ->).
    eexists. rewrite <- app_assoc. split; [done|].
    rewrite fixed_updates_app, fixed_updates_replicate.
    rewrite fixed_updates_idle. change (fixed_updates []) with 0%nat.
    destruct Hnn as [-> | Hnn]; [lia|].
    rewrite Hd in Hnn.
    assert (Hn4 : num (Z.of_nat n) < num 4).
    { clear -Hnn Hd4 Hpos.
      generalize dependent (num (Z.of_nat n)).
      generalize dependent (step u4). generalize dependent (deltaTime u4).
      intros d s Hs Hd k Hk. qc_to_q. nra. }
    apply Z2Qc_inj_lt in Hn4. lia.
Qed.

(** The bound of C4 on a game that has ticked once ([last = 1]) and holds
    [16] ms in the accumulator, one second later. *)
Definition stalled : t :=
  {| desiredFPS := num 60;
     updateInfo := set_deltaTime (num 16) (set_last (num 1) (updateInfo new));
     calls := [] |}.

Lemma run_catch_up_bound_witness :
  (∃ g', run 4 1 stalled (num 1001) = Some g') ∧
  ∀ fuel g', run fuel 1 stalled (num 1001) = Some g' →
    ∃ new, calls g' = calls stalled ++ new ∧ (fixed_updates new ≤ 3)%nat.
Proof.
  apply (run_catch_up_bound 1 stalled (num 1001)).
  - reflexivity.
  - by vm_compute.
  - apply Qc_is_canon. by vm_compute.
Defined.

(** *** Termination of a tick *)

Lemma Qc_scale_lt (q k m s : Qc) : 0 < s → q < k → k ≤ m → q * s < m * s.
Proof. intros Hs Hq Hk. qc_to_q. nra. Qed.

Lemma Qc_archimedean (d s : Qc) : 0 < s → ∃ n : nat, d < num (Z.of_nat n) * s.
Proof.
  intros Hs.
  exists (Z.to_nat (Qfloor (this (d / s)) + 1)).
  assert (Hfl := Qlt_floor (this (d / s))).
  set (z := (Qfloor (this (d / s)) + 1)%Z) in *.
  assert (Hdz : d / s < num z) by exact Hfl.
  assert (Hzn : num z ≤ num (Z.of_nat (Z.to_nat z))).
  { unfold num. apply (proj1 (Z2Qc_inj_le z (Z.of_nat (Z.to_nat z)))). lia. }
  assert (Hds : d = d / s * s).
  { field. intros ->. by apply Qclt_not_eq in Hs. }
  rewrite Hds at 1.
  by apply Qc_scale_lt with (num z).
Qed.

(** A tick returns whenever [desiredFPS] is positive. *)
Lemma run_terminates (speed : Qc) (g : t) (timestamp : Qc) :
  0 < desiredFPS g → ∃ fuel g', run fuel speed g timestamp = Some g'.
Proof.
  intros Hfps. unfold run.
  set (u2 := set_last timestamp _).
  destruct (decide (1 < spiraling u2)%Z); [exists 0%nat; eauto|].
  set (u4 := set_count 0 _).
  assert (Hpos : 0 < step u4).
  { change (step u4) with (num 1000 / desiredFPS g).
    apply Qcmult_pos_pos; [by vm_compute|].
    by apply Qcinv_pos. }
  destruct (Qc_archimedean (deltaTime u4) (step u4) Hpos) as [k Hk].
  exists k.
  destruct (catch_up_enough_fuel k u4 (calls g) Hpos Hk) as [[u5 log] ->].
  eauto.
Qed.

(** *** Spiral reset *)

Lemma detect_spiral_counters (u : UpdateInfo) :
  count (detect_spiral u) = count u ∧
  lastCount (detect_spiral u) = count u ∧
  spiraling (detect_spiral u) =
    if decide (lastCount u < count u)%Z then (spiraling u + 1)%Z
    else if decide (count u < lastCount u)%Z then 0%Z
    else spiraling u.
Proof. unfold detect_spiral. repeat destruct (decide _); cbn; auto. Qed.

(** One tick, on the counters: either the reset branch, or the catch-up
    branch followed by the spiral detection. *)
Lemma run_counters fuel speed g timestamp g' :
  run fuel speed g timestamp = Some g' →
  let u := updateInfo g in
  let u' := updateInfo g' in
  ((1 < spiraling u)%Z ∧ spiraling u' = 0%Z ∧ deltaTime u' = 0 ∧
     count u' = count u ∧ lastCount u' = lastCount u)
  ∨ ((spiraling u ≤ 1)%Z ∧ lastCount u' = count u' ∧
       spiraling u' =
         if decide (lastCount u < count u')%Z then (spiraling u + 1)%Z
         else if decide (count u' < lastCount u)%Z then 0%Z
         else spiraling u).
Proof.
  unfold run.
  set (u1 := if decide (0 < last (updateInfo g)) then _ else _).
  assert (Hs1 : spiraling u1 = spiraling (updateInfo g)).
  { subst u1. by destruct (decide _). }
  assert (Hc1 : count u1 = count (updateInfo g)).
  { subst u1. by destruct (decide _). }
  assert (Hl1 : lastCount u1 = lastCount (updateInfo g)).
  { subst u1. by destruct (decide _). }
  destruct (decide (1 < spiraling (set_last timestamp u1))%Z) as [Hsp|Hsp];
    cbn [spiraling set_last] in Hsp; rewrite Hs1 in Hsp.
  - intros [= <-]. left. cbn. auto.
  - set (u4 := set_count 0 _).
    destruct (catch_up fuel u4 (calls g)) as [[u5 log]|] eqn:Hloop; [|done].
    intros [= <-]. right.
    apply catch_up_inv in Hloop
      as (n & _ & Hc & _ & _ & _ & _ & Hs5 & Hl5 & _ & _ & _).
    assert (Hs4 : spiraling u4 = spiraling (updateInfo g)) by (cbn; done).
    assert (Hl4 : lastCount u4 = lastCount (updateInfo g)) by (cbn; done).
    cbn [updateInfo].
    destruct (detect_spiral_counters u5) as (Hdc & Hdl & Hds).
    rewrite Hdc, Hdl, Hds, Hs5, Hl5, Hs4, Hl4.
    split; [lia|done].
Qed.

Lemma run_counters_ok fuel speed g timestamp g' :
  run fuel speed g timestamp = Some g' →
  counters_ok (updateInfo g) → counters_ok (updateInfo g').
Proof.
  intros Hrun [Hc Hs]. apply run_counters in Hrun. cbn zeta in Hrun.
  unfold counters_ok.
  destruct Hrun as [(_ & -> & _ & -> & ->) | (_ & -> & ->)]; [split; [done|lia]|].
  split; [done|]. repeat destruct (decide _); lia.
Qed.

Lemma reachable_counters_ok g : reachable g → counters_ok (updateInfo g).
Proof.
  induction 1 as [| g fps _ IH _ | g fuel speed timestamp g' _ IH Hrun].
  - split; [done|]. cbn. lia.
  - exact IH.
  - eapply run_counters_ok; eauto.
Qed.

(** C5. In every run of the scheduler, when the iteration count [count]
    strictly increases on two consecutive ticks, the tick that follows
    returns (whatever the fuel: it does not enter the loop) with the
    accumulator [deltaTime] set to zero and [spiraling] reset to zero. *)
Theorem spiral_reset (g0 g1 g2 : t) (f1 f2 : nat) (s1 s2 t1 t2 : Qc) :
  reachable g0 →
  run f1 s1 g0 t1 = Some g1 →
  run f2 s2 g1 t2 = Some g2 →
  (count (updateInfo g0) < count (updateInfo g1))%Z →
  (count (updateInfo g1) < count (updateInfo g2))%Z →
  ∀ (f3 : nat) (s3 t3 : Qc),
    ∃ g3, run f3 s3 g2 t3 = Some g3 ∧
          deltaTime (updateInfo g3) = 0 ∧ spiraling (updateInfo g3) = 0%Z.
Proof.
  intros Hreach Hrun1 Hrun2 Hinc1 Hinc2 f3 s3 t3.
  destruct (reachable_counters_ok _ Hreach) as [Hc0 Hs0].
  assert (Hok1 : counters_ok (updateInfo g1)).
  { eapply run_counters_ok; eauto. by split. }
  destruct Hok1 as [Hc1 Hs1].
  apply run_counters in Hrun1. apply run_counters in Hrun2. cbn zeta in *.
  assert (Hs2 : (1 < spiraling (updateInfo g2))%Z).
  { destruct Hrun1 as [(_ & _ & _ & Hc & _) | (_ & Hl1 & Hsp1)]; [lia|].
    destruct Hrun2 as [(_ & _ & _ & Hc & _) | (_ & Hl2 & Hsp2)]; [lia|].
    rewrite Hsp2, Hsp1.
    repeat destruct (decide _); lia. }
  unfold run.
  set (u1 := if decide (0 < last (updateInfo g2)) then _ else _).
  assert (Hsu : spiraling u1 = spiraling (updateInfo g2)).
  { subst u1. by destruct (decide (0 < last (updateInfo g2))). }
  destruct (decide (1 < spiraling (set_last t3 u1))%Z) as [Hsp|Hsp].
  - eexists. split; [reflexivity|]. split; reflexivity.
  - cbn [spiraling set_last] in Hsp. lia.
Qed.

(** A run that spirals: a new game ticked at 1 ms (no iteration), then
    17 ms later (one iteration), then 34 ms later (two iterations). *)
Definition tick (g : t) (timestamp : Qc) : t :=
  default g (run 8 1 g timestamp).

Definition spiral0 : t := tick new (num 1).
Definition spiral1 : t := tick spiral0 (num 18).
Definition spiral2 : t := tick spiral1 (num 52).

Lemma spiral_reset_witness :
  ∃ g3, run 0 1 spiral2 (num 60) = Some g3 ∧
        deltaTime (updateInfo g3) = 0 ∧ spiraling (updateInfo g3) = 0%Z.
Proof.
  apply (spiral_reset spiral0 spiral1 spiral2 8 8 1 1 (num 18) (num 52)).
  - apply (reach_run new 8 1 (num 1)); [apply reach_new|].
    vm_compute. reflexivity.
  - vm_compute. reflexivity.
  - vm_compute. reflexivity.
  - vm_compute. reflexivity.
  - vm_compute. reflexivity.
Defined.

End Game.

(** ** Vectors ([engine/vector]) *)

Module Vector.

(** Modelled from the spec: [engine/vector] is imported by the physics module
    but is not among the sources; the spec gives [Vector2] as the value type
    [{x, y}] with the operations add, scale, distance and angle. *)
Record t := { x : Qc; y : Qc }.

(** Modelled from the spec: [new Vector(x, y)], the coordinates default to 0. *)
Definition new (vx vy : Qc) : t := {| x := vx; y := vy |}.
Definition zero : t := new 0 0.

(** Modelled from the spec: [v.add(dx, dy)], [v.scale(s)] (missing module
    [engine/vector]). *)
Definition add (v : t) (dx dy : Qc) : t := {| x := x v + dx; y := y v + dy |}.
Definition scale (v : t) (s : Qc) : t := {| x := x v * s; y := y v * s |}.

(** Modelled from the spec: [v.distance(w)], the Euclidean distance, and
    [v.angle(w)], the angle of the segment from [v] to [w] (missing module
    [engine/vector]). *)
Definition distance `{MathLib} (v w : t) : Qc :=
  Math_sqrt ((x w - x v) * (x w - x v) + (y w - y v) * (y w - y v)).
Definition angle `{MathLib} (v w : t) : Qc :=
  Math_atan2 (y w - y v) (x w - x v).

Lemma distance_sym `{MathLib} (v w : t) : distance v w = distance w v.
Proof. unfold distance. f_equal. ring. Qed.

End Vector.

(** ** The physics module *)

Module Physics.

(** *** Data *)

Abbreviation BodyRef := positive.
Abbreviation WorldRef := positive.

(** The shape of a body: [new Rectangle(width, height)], [new Circle(radius)],
    or some other object, which has none of the three properties.  Objects
    that carry only part of a shape's properties are outside the model. *)
Inductive Shape :=
| Rectangle (width height : Qc)
| Circle (radius : Qc)
| OtherShape.

(** Property reads on a shape: [None] is [undefined]. *)
Definition Shape_width (s : Shape) : option Qc :=
  match s with Rectangle w _ => Some w | _ => None end.
Definition Shape_height (s : Shape) : option Qc :=
  match s with Rectangle _ h => Some h | _ => None end.
Definition Shape_radius (s : Shape) : option Qc :=
  match s with Circle r => Some r | _ => None end.

(** A value used as a condition: [undefined] and [0] are falsy. *)
Definition truthy (v : option Qc) : bool :=
  match v with Some q => bool_decide (q ≠ 0) | None => false end.

(** [function Body(properties)] and the two private fields [_collides] and
    [_remove].  [collisionGroup] is [None] when it is not a number. *)
Record Body := {
  world : option WorldRef;
  shape : option Shape;
  position : Vector.t;
  last : Vector.t;
  velocity : Vector.t;
  velocityLimit : Vector.t;
  mass : Qc;
  collisionGroup : option Z;
  collideAgainst : list Z;
  force : Vector.t;
  damping : Qc;
  _collides : list BodyRef;
  _remove : bool
}.

(** [function World(x, y)]: gravity, the bodies and the collision groups (the
    solver has no state). *)
Record World := {
  gravity : Vector.t;
  bodies : list BodyRef;
  collisionGroups : gmap Z (list BodyRef)
}.

(** The second argument of [Body.prototype.collide]: a direction for two
    rectangles, an angle for two circles, nothing for "inside". *)
Inductive Direction := DOWN | UP | RIGHT | LEFT.

Inductive CollideArg :=
| Dir (d : Direction)
| Angle (a : Qc)
| NoArg.

(** Calls made during collision handling, in the order they happen. *)
Inductive Event :=
| EvHitTest (a b : BodyRef) (hit : bool)
| EvHitResponse (a b : BodyRef)
| EvCollide (a b : BodyRef) (arg : CollideArg)
| EvAfterCollide (a b : BodyRef).

(** The objects of a program, by reference, and the log of events. *)
Record Store := {
  bodyOf : gmap BodyRef Body;
  worldOf : gmap WorldRef World;
  events : list Event
}.

(** *** Results *)

(** [TypeError] is the JavaScript exception of a property read on [null] or
    [undefined]; [Stuck] marks what the model does not cover (a reference
    with no object, arithmetic on [undefined]). *)
Inductive Error := TypeError | Stuck.

Inductive result (A : Type) :=
| Ok (a : A)
| Throw (e : Error).
Arguments Ok {A} a.
Arguments Throw {A} e.

#[global] Instance result_ret : MRet result := λ A a, Ok a.
#[global] Instance result_bind : MBind result := λ A B f m,
  match m with Ok a => f a | Throw e => Throw e end.

(** The hooks of a body that subclasses override.  [Body.prototype.collide]
    is modelled as a predicate that reads the store; the default accepts.
    [Body.prototype.afterCollide] is the default, which does nothing: a call
    is only recorded in the log. *)
Class Hooks := { Body_collide : Store → BodyRef → BodyRef → CollideArg → bool }.

Definition default_hooks : Hooks := {| Body_collide := λ _ _ _ _, true |}.

(** *** Constructor *)

(** The [properties] argument of [new Body(properties)]: the properties it
    defines ([None]: not a property of the argument). *)
Record Properties := {
  p_world : option (option WorldRef);
  p_shape : option (option Shape);
  p_position : option Vector.t;
  p_last : option Vector.t;
  p_velocity : option Vector.t;
  p_velocityLimit : option Vector.t;
  p_mass : option Qc;
  p_collisionGroup : option (option Z);
  p_collideAgainst : option (list Z);
  p_force : option Vector.t;
  p_damping : option Qc
}.

Definition no_properties : Properties :=
  {| p_world := None; p_shape := None; p_position := None; p_last := None;
     p_velocity := None; p_velocityLimit := None; p_mass := None;
     p_collisionGroup := None; p_collideAgainst := None; p_force := None;
     p_damping := None |}.

(** [function Body(properties)]: the defaults, then [Object.assign]. *)
Definition Body_new (p : Properties) : Body :=
  {| world := default None (p_world p);
     shape := default None (p_shape p);
     position := default Vector.zero (p_position p);
     last := default Vector.zero (p_last p);
     velocity := default Vector.zero (p_velocity p);
     velocityLimit := default (Vector.new (num 400) (num 400)) (p_velocityLimit p);
     mass := default 0 (p_mass p);
     collisionGroup := default None (p_collisionGroup p);
     collideAgainst := default [] (p_collideAgainst p);
     force := default Vector.zero (p_force p);
     damping := default 0 (p_damping p);
     _collides := [];
     _remove := false |}.

(** [function World(x = 0, y = 980)]. *)
Definition World_new (gx gy : Qc) : World :=
  {| gravity := Vector.new gx gy; bodies := []; collisionGroups := ∅ |}.

(** *** Field updates *)

Definition set_owner (w : option WorldRef) (r : bool) (b : Body) : Body :=
  {| world := w; shape := shape b; position := position b; last := last b;
     velocity := velocity b; velocityLimit := velocityLimit b; mass := mass b;
     collisionGroup := collisionGroup b; collideAgainst := collideAgainst b;
     force := force b; damping := damping b; _collides := _collides b;
     _remove := r |}.

Definition set_position (v : Vector.t) (b : Body) : Body :=
  {| world := world b; shape := shape b; position := v; last := last b;
     velocity := velocity b; velocityLimit := velocityLimit b; mass := mass b;
     collisionGroup := collisionGroup b; collideAgainst := collideAgainst b;
     force := force b; damping := damping b; _collides := _collides b;
     _remove := _remove b |}.

Definition set_collides (l : list BodyRef) (b : Body) : Body :=
  {| world := world b; shape := shape b; position := position b; last := last b;
     velocity := velocity b; velocityLimit := velocityLimit b; mass := mass b;
     collisionGroup := collisionGroup b; collideAgainst := collideAgainst b;
     force := force b; damping := damping b; _collides := l;
     _remove := _remove b |}.

(** The three vectors [Body.prototype.update] writes. *)
Definition set_motion (l v p : Vector.t) (b : Body) : Body :=
  {| world := world b; shape := shape b; position := p; last := l;
     velocity := v; velocityLimit := velocityLimit b; mass := mass b;
     collisionGroup := collisionGroup b; collideAgainst := collideAgainst b;
     force := force b; damping := damping b; _collides := _collides b;
     _remove := _remove b |}.

Definition get_body (st : Store) (r : BodyRef) : result Body :=
  match bodyOf st !! r with Some b => Ok b | None => Throw Stuck end.

Definition get_world (st : Store) (r : WorldRef) : result World :=
  match worldOf st !! r with Some w => Ok w | None => Throw Stuck end.

Definition put_body (r : BodyRef) (b : Body) (st : Store) : Store :=
  {| bodyOf := <[r := b]> (bodyOf st); worldOf := worldOf st;
     events := events st |}.

Definition put_world (r : WorldRef) (w : World) (st : Store) : Store :=
  {| bodyOf := bodyOf st; worldOf := <[r := w]> (worldOf st);
     events := events st |}.

Definition log (e : Event) (st : Store) : Store :=
  {| bodyOf := bodyOf st; worldOf := worldOf st; events := events st ++ [e] |}.

(** *** The world: adding bodies *)

(** [World.prototype.addBodyCollision]. *)
Definition World_addBodyCollision (st : Store) (w : WorldRef) (body : BodyRef)
  : result Store :=
  B ← get_body st body;
  W ← get_world st w;
  match collisionGroup B with
  | None => Ok st
  | Some k =>
      let group := default [] (collisionGroups W !! k) in
      let W1 := {| gravity := gravity W; bodies := bodies W;
                   collisionGroups := <[k := group]> (collisionGroups W) |} in
      if decide (body ∈ group) then Ok (put_world w W1 st)
      else
        let W2 := {| gravity := gravity W; bodies := bodies W;
                     collisionGroups :=
                       <[k := group ++ [body]]> (collisionGroups W) |} in
        Ok (put_world w W2 st)
  end.

(** [World.prototype.addBody]. *)
Definition World_addBody (st : Store) (w : WorldRef) (body : BodyRef)
  : result Store :=
  B ← get_body st body;
  W ← get_world st w;
  let st1 := put_body body (set_owner (Some w) false B) st in
  let W1 := {| gravity := gravity W; bodies := bodies W ++ [body];
               collisionGroups := collisionGroups W |} in
  World_addBodyCollision (put_world w W1 st1) w body.

(** [Body.prototype.addTo]. *)
Definition Body_addTo (st : Store) (body : BodyRef) (w : WorldRef)
  : result Store :=
  B ← get_body st body;
  match world B with
  | Some _ => Ok st
  | None => World_addBody st w body
  end.

(** *** The collision solver *)

Section Solver.
Context `{M : MathLib} `{H : Hooks}.

(** [b.shape.p]: a [TypeError] when [b.shape] is [null]. *)
Definition shape_prop (b : Body) (p : Shape → option Qc) : result (option Qc) :=
  match shape b with
  | Some s => Ok (p s)
  | None => Throw TypeError
  end.

(** [b.shape.p] used in arithmetic. *)
Definition shape_num (b : Body) (p : Shape → option Qc) : result Qc :=
  v ← shape_prop b p;
  match v with Some q => Ok q | None => Throw Stuck end.

(** The condition [a.shape.p && b.shape.q]: [b.shape] is read only when
    [a.shape.p] is truthy. *)
Definition both_truthy (a b : Body) (p q : Shape → option Qc) : result bool :=
  v ← shape_prop a p;
  if truthy v then w ← shape_prop b q; Ok (truthy w) else Ok false.

(** [CollisionSolver.prototype.hitTest]. *)
Definition hitTest (a b : Body) : result bool :=
  let ax := Vector.x (position a) in
  let ay := Vector.y (position a) in
  let bx := Vector.x (position b) in
  let by_ := Vector.y (position b) in
  rr ← both_truthy a b Shape_width Shape_width;
  if rr : bool then
    ah ← shape_num a Shape_height;
    bh ← shape_num b Shape_height;
    aw ← shape_num a Shape_width;
    bw ← shape_num b Shape_width;
    Ok (negb (bool_decide (ay + ah / num 2 ≤ by_ - bh / num 2)
              || bool_decide (by_ + bh / num 2 ≤ ay - ah / num 2)
              || bool_decide (bx + bw / num 2 ≤ ax - aw / num 2)
              || bool_decide (ax + aw / num 2 ≤ bx - bw / num 2)))
  else
    cc ← both_truthy a b Shape_radius Shape_radius;
    if cc : bool then
      ar ← shape_num a Shape_radius;
      br ← shape_num b Shape_radius;
      Ok (bool_decide (Vector.distance (position a) (position b) < ar + br))
    else
      rc ← both_truthy a b Shape_width Shape_radius;
      cr ← (if rc : bool then Ok true
            else both_truthy a b Shape_radius Shape_width);
      if cr : bool then
        aw ← shape_prop a Shape_width;
        ar ← shape_prop a Shape_radius;
        let rect := if truthy aw then a else b in
        let circle := if truthy ar then a else b in
        rw ← shape_num rect Shape_width;
        rh ← shape_num rect Shape_height;
        r ← shape_num circle Shape_radius;
        let rx := Vector.x (position rect) in
        let ry := Vector.y (position rect) in
        let cx := Vector.x (position circle) in
        let cy := Vector.y (position circle) in
        let x := Math_max (rx - rw / num 2) (Math_min (rx + rw / num 2) cx) in
        let y := Math_max (ry - rh / num 2) (Math_min (ry + rh / num 2) cy) in
        let dist := Math_pow (cx - x) (num 2) + Math_pow (cy - y) (num 2) in
        Ok (bool_decide (dist < r * r))
      else Ok false.

(** [a.collide(b, arg)], logged. *)
Definition call_collide (st : Store) (a b : BodyRef) (arg : CollideArg)
  : Store * bool :=
  (log (EvCollide a b arg) st, Body_collide st a b arg).

(** [CollisionSolver.prototype.hitResponse]; the result [undefined] is
    [false]. *)
Definition hitResponse (st : Store) (a b : BodyRef) : result (Store * bool) :=
  A ← get_body st a;
  B ← get_body st b;
  let respond (arg : CollideArg) (p : Vector.t) : result (Store * bool) :=
    let '(st1, accepted) := call_collide st a b arg in
    if accepted : bool then Ok (put_body a (set_position p A) st1, true)
    else Ok (st1, false) in
  let ax := Vector.x (position A) in
  let ay := Vector.y (position A) in
  let bx := Vector.x (position B) in
  let by_ := Vector.y (position B) in
  rr ← both_truthy A B Shape_width Shape_width;
  if rr : bool then
    ah ← shape_num A Shape_height;
    bh ← shape_num B Shape_height;
    aw ← shape_num A Shape_width;
    bw ← shape_num B Shape_width;
    if decide (Vector.y (last A) + ah / num 2 ≤ Vector.y (last B) - bh / num 2)
    then respond (Dir DOWN) (Vector.new ax (by_ - bh / num 2 - ah / num 2))
    else if decide (Vector.y (last B) + bh / num 2 ≤ Vector.y (last A) - ah / num 2)
    then respond (Dir UP) (Vector.new ax (by_ + bh / num 2 + ah / num 2))
    else if decide (Vector.x (last A) + aw / num 2 ≤ Vector.x (last B) - bw / num 2)
    then respond (Dir RIGHT) (Vector.new (bx - bw / num 2 - aw / num 2) ay)
    else if decide (Vector.x (last B) + bw / num 2 ≤ Vector.x (last A) - aw / num 2)
    then respond (Dir LEFT) (Vector.new (bx + bw / num 2 + aw / num 2) ay)
    else Ok (call_collide st a b NoArg)
  else
    cc ← both_truthy A B Shape_radius Shape_radius;
    if cc : bool then
      ar ← shape_num A Shape_radius;
      br ← shape_num B Shape_radius;
      let angle := Vector.angle (position B) (position A) in
      let dist := ar + br in
      respond (Angle angle)
        (Vector.new (bx + Math_cos angle * dist) (by_ + Math_sin angle * dist))
    else Ok (st, false).

(** *** Collisions of a body against its groups *)

(** The first inner loop of [World.prototype.collide],
    [for (i = group.length - 1; i >= 0; i--)], with [n = i + 1]: hit tests,
    each hit pushed onto [body._collides]. *)
Fixpoint test_loop (st : Store) (body : BodyRef) (group : list BodyRef)
    (n : nat) : result Store :=
  match n with
  | O => Ok st
  | S i =>
      match group !! i with
      | None => Throw Stuck
      | Some b =>
          st1 ← (if decide (body = b) then Ok st
                 else
                   A ← get_body st body;
                   B ← get_body st b;
                   hit ← hitTest A B;
                   let st' := log (EvHitTest body b hit) st in
                   if hit : bool
                   then Ok (put_body body (set_collides (_collides A ++ [b]) A) st')
                   else Ok st');
          test_loop st1 body group i
      end
  end.

(** The second inner loop,
    [for (i = body._collides.length - 1; i >= 0; i--)], with [n = i + 1]:
    [body._collides[i]] is read from the store at every iteration. *)
Fixpoint respond_loop (st : Store) (body : BodyRef) (n : nat) : result Store :=
  match n with
  | O => Ok st
  | S i =>
      A ← get_body st body;
      match _collides A !! i with
      | None => Throw Stuck
      | Some b =>
          '(st1, r) ← hitResponse (log (EvHitResponse body b) st) body b;
          let st2 := if r : bool then log (EvAfterCollide body b) st1 else st1 in
          respond_loop st2 body i
      end
  end.

(** One iteration of the outer loop of [World.prototype.collide], for the
    group number [key = body.collideAgainst[g]]. *)
Definition collide_group (w : WorldRef) (body : BodyRef) (st : Store) (key : Z)
  : result Store :=
  A ← get_body st body;
  let st1 := put_body body (set_collides [] A) st in
  W ← get_world st1 w;
  match collisionGroups W !! key with
  | None => Ok st1
  | Some group =>
      st2 ← test_loop st1 body group (length group);
      A2 ← get_body st2 body;
      respond_loop st2 body (length (_collides A2))
  end.

(** The outer loop of [World.prototype.collide] over the group numbers
    [keys], as long as no iteration raises. *)
Definition collide_groups (w : WorldRef) (body : BodyRef) (st : Store)
    (keys : list Z) : result Store :=
  foldl (λ acc key, st' ← acc; collide_group w body st' key) (Ok st) keys.

(** [World.prototype.collide]. *)
Definition World_collide (st : Store) (w : WorldRef) (body : BodyRef)
  : result Store :=
  A ← get_body st body;
  collide_groups w body st (collideAgainst A).

(** *** Integration *)

(** The velocity of [Body.prototype.update] before the two clamps: gravity
    (a read of [this.world.gravity], when the mass is not zero), force,
    damping. *)
Definition velocity_before_clamp (st : Store) (B : Body) (delta : Qc)
  : result Vector.t :=
  v1 ← (if decide (mass B ≠ 0) then
          match world B with
          | None => Throw TypeError
          | Some w =>
              W ← get_world st w;
              Ok (Vector.add (velocity B)
                    (Vector.x (gravity W) * mass B * delta)
                    (Vector.y (gravity W) * mass B * delta))
          end
        else Ok (velocity B));
  let v2 := Vector.add v1 (Vector.x (force B) * delta) (Vector.y (force B) * delta) in
  if decide (0 < damping B ∧ damping B < 1)
  then Ok (Vector.scale v2 (Math_pow (1 - damping B) delta))
  else Ok v2.

(** The two clamps of the velocity. *)
Definition clamp_velocity (limit v : Vector.t) : Vector.t :=
  let vx := if decide (0 < Vector.x limit)
            then Math_clamp (Vector.x v) (- Vector.x limit) (Vector.x limit)
            else Vector.x v in
  let vy := if decide (0 < Vector.y limit)
            then Math_clamp (Vector.y v) (- Vector.y limit) (Vector.y limit)
            else Vector.y v in
  Vector.new vx vy.

(** [Body.prototype.update], on the body value. *)
Definition integrate (st : Store) (B : Body) (delta : Qc) : result Body :=
  v ← velocity_before_clamp st B delta;
  let v' := clamp_velocity (velocityLimit B) v in
  let p' := Vector.add (position B) (Vector.x v' * delta) (Vector.y v' * delta) in
  Ok (set_motion (position B) v' p' B).

(** [Body.prototype.update], on the store. *)
Definition Body_update (st : Store) (body : BodyRef) (delta : Qc)
  : result Store :=
  B ← get_body st body;
  B' ← integrate st B delta;
  Ok (put_body body B' st).

(** *** What the statements observe *)

(** The gravity [update] reads through [this.world], when there is one. *)
Definition gravity_of (st : Store) (B : Body) : option Vector.t :=
  w ← world B; W ← worldOf st !! w; Some (gravity W).


(** The bodies [hitResponse] is called on, in the order of the calls. *)
Definition response_targets (evs : list Event) : list BodyRef :=
  omap (λ e, match e with EvHitResponse _ b => Some b | _ => None end) evs.

(** The hit tests of a log. *)
Definition is_hitTest (e : Event) : bool :=
  match e with EvHitTest _ _ _ => true | _ => false end.

Definition hit_tests (evs : list Event) : list Event :=
  filter (λ e, is_hitTest e) evs.

(** [body], in state [A], hits the other body [b] of the heap [m]. *)
Definition hits (m : gmap BodyRef Body) (body : BodyRef) (A : Body)
    (b : BodyRef) : bool :=
  if decide (body = b) then false
  else match m !! b with
       | Some B => match hitTest A B with Ok h => h | Throw _ => false end
       | None => false
       end.

(** The hit tests of [body] against the members [l], in order. *)
Definition test_events (m : gmap BodyRef Body) (body : BodyRef) (A : Body)
    (l : list BodyRef) : list Event :=
  omap (λ b, if decide (body = b) then None
             else Some (EvHitTest body b (hits m body A b))) l.

(** *** Properties of the hit test *)

(** C1 (amended). [hitTest a b] is [false], with no exception, when the
    shape of [a] is an object with none of the properties [width], [height]
    and [radius] (whatever the shape of [b], even [null]), and when the
    shape of [a] is a rectangle, a circle or such an object and the shape of
    [b] is such an object.  A missing shape is not covered: see
    [hitTest_missing_shape_throws]. *)
Theorem hitTest_unknown_shape (A B : Body) :
  shape A = Some OtherShape ∨ (is_Some (shape A) ∧ shape B = Some OtherShape) →
  hitTest A B = Ok false.
Proof.
  intros [HA | [[sa HA] HB]]; unfold hitTest, both_truthy, shape_num, shape_prop;
    rewrite HA; [done|].
  rewrite HB. destruct sa as [w h | r |]; cbn.
  - by destruct (bool_decide (w ≠ 0)).
  - by destruct (bool_decide (r ≠ 0)).
  - done.
Qed.

(** C8. On two rectangles and on two circles [hitTest] does not depend on
    the order of its arguments; two rectangles of which the first has its
    right edge on the left edge of the second do not hit. *)
Theorem hitTest_symmetric (A B : Body) :
  (∀ aw ah bw bh,
     shape A = Some (Rectangle aw ah) → shape B = Some (Rectangle bw bh) →
     hitTest A B = hitTest B A ∧
     (Vector.x (position A) + aw / num 2 = Vector.x (position B) - bw / num 2 →
      hitTest A B = Ok false)) ∧
  (∀ ar br,
     shape A = Some (Circle ar) → shape B = Some (Circle br) →
     hitTest A B = hitTest B A).
Proof.
  split.
  - intros aw ah bw bh HA HB.
    unfold hitTest, both_truthy, shape_num, shape_prop. rewrite HA, HB. cbn.
    destruct (bool_decide (aw ≠ 0)), (bool_decide (bw ≠ 0)); cbn; try done.
    split.
    + f_equal. f_equal.
      repeat match goal with |- context [bool_decide ?P] =>
        destruct (bool_decide P) end; done.
    + intros Hedge. f_equal.
      rewrite (bool_decide_eq_true_2
                 (Vector.x (position A) + aw / num 2
                  ≤ Vector.x (position B) - bw / num 2))
        by (rewrite Hedge; apply Qcle_refl).
      by rewrite !orb_true_r.
  - intros ar br HA HB.
    unfold hitTest, both_truthy, shape_num, shape_prop. rewrite HA, HB. cbn.
    destruct (bool_decide (ar ≠ 0)), (bool_decide (br ≠ 0)); cbn; try done.
    by rewrite Vector.distance_sym, (Qcplus_comm ar br).
Qed.

(** *** Properties of the integration *)



Lemma velocity_before_clamp_gravity (st1 st2 : Store) (B : Body) (delta : Qc) :
  gravity_of st1 B = gravity_of st2 B →
  velocity_before_clamp st1 B delta = velocity_before_clamp st2 B delta.
Proof.
  unfold gravity_of, velocity_before_clamp, get_world. intros Hg.
  destruct (decide (mass B ≠ 0)); [|done].
  destruct (world B) as [w|]; [|done]. cbn in Hg.
  destruct (worldOf st1 !! w) as [W1|], (worldOf st2 !! w) as [W2|];
    cbn in *; try done.
  by injection Hg as ->.
Qed.

Lemma velocity_before_clamp_ok (st : Store) (B : Body) (delta : Qc) :
  mass B = 0 ∨ is_Some (gravity_of st B) →
  ∃ v, velocity_before_clamp st B delta = Ok v.
Proof.
  unfold gravity_of, velocity_before_clamp, get_world. intros Hok.
  destruct (decide (mass B ≠ 0)) as [Hm|Hm].
  - destruct Hok as [Hz | [g Hg]]; [done|].
    destruct (world B) as [w|]; [|done]. cbn in Hg.
    destruct (worldOf st !! w) as [W|]; [|done]. cbn.
    destruct (decide _); eauto.
  - cbn. destruct (decide _); eauto.
Qed.

(** C9 (amended). For a body whose mass is zero or whose world is there,
    [update] raises nothing; it changes the store at this body only, and
    there only [last] (the old position), [velocity] and [position]; and the
    new state of the body is a function of its old state, the gravity of
    its world and [delta]: a body in the same state elsewhere gets the same
    new state.  A body with a mass and no world is not covered: see
    [Body_update_without_world_throws]. *)
Theorem Body_update_safe (st : Store) (body : BodyRef) (delta : Qc) (B : Body) :
  bodyOf st !! body = Some B →
  mass B = 0 ∨ is_Some (gravity_of st B) →
  ∃ st' B',
    Body_update st body delta = Ok st' ∧
    bodyOf st' !! body = Some B' ∧
    B' = set_motion (position B) (velocity B') (position B') B ∧
    worldOf st' = worldOf st ∧ events st' = events st ∧
    (∀ r, r ≠ body → bodyOf st' !! r = bodyOf st !! r) ∧
    (∀ st2 body2,
       bodyOf st2 !! body2 = Some B → gravity_of st2 B = gravity_of st B →
       ∃ st2', Body_update st2 body2 delta = Ok st2' ∧
               bodyOf st2' !! body2 = Some B').
Proof.
  intros HB Hok.
  destruct (velocity_before_clamp_ok st B delta Hok) as [v Hv].
  unfold Body_update, integrate, get_body. rewrite HB. cbn. rewrite Hv. cbn.
  eexists _, _. split; [reflexivity|]. cbn.
  split; [by rewrite lookup_insert_eq|].
  repeat split.
  - intros r Hr. by rewrite lookup_insert_ne.
  - intros st2 body2 HB2 Hg.
    rewrite HB2. cbn.
    rewrite (velocity_before_clamp_gravity st2 st B delta Hg), Hv. cbn.
    eexists. split; [reflexivity|]. cbn. by rewrite lookup_insert_eq.
Qed.






(** *** Properties of the hit response *)



(** *** The two phases of [World.prototype.collide] *)

Lemma hitTest_set_collides (C : list BodyRef) (A B : Body) :
  hitTest (set_collides C A) B = hitTest A B.
Proof.
  unfold hitTest, both_truthy, shape_num, shape_prop. cbn.
  destruct (shape A) as [[aw ah|ar|]|]; cbn; try done.
  all: destruct (bool_decide _); cbn; [|done].
  all: destruct (shape B) as [[bw bh|br|]|]; cbn; try done.
  all: destruct (bool_decide _); cbn; done.
Qed.

Lemma response_targets_app (l1 l2 : list Event) :
  response_targets (l1 ++ l2) = response_targets l1 ++ response_targets l2.
Proof. apply omap_app. Qed.

Lemma hit_tests_app (l1 l2 : list Event) :
  hit_tests (l1 ++ l2) = hit_tests l1 ++ hit_tests l2.
Proof. apply filter_app. Qed.

Lemma response_targets_test_events m body A l :
  response_targets (test_events m body A l) = [].
Proof.
  induction l as [|b l IH]; [done|].
  unfold test_events. cbn. destruct (decide (body = b)); [exact IH|].
  cbn. exact IH.
Qed.

Lemma test_events_self m body A l :
  test_events m body A (body :: l) = test_events m body A l.
Proof. unfold test_events. cbn. by rewrite decide_True. Qed.

Lemma test_events_other m body A b l :
  body ≠ b →
  test_events m body A (b :: l)
  = EvHitTest body b (hits m body A b) :: test_events m body A l.
Proof. intros Hne. unfold test_events. cbn. by rewrite decide_False. Qed.

Lemma hits_self m body A : hits m body A body = false.
Proof. unfold hits. by rewrite decide_True. Qed.

(** The first loop: from index [n - 1] down to 0, the members other than
    [body] are tested against the state [body] has on entry, and the hits
    are appended to [_collides]; nothing else changes. *)
Lemma test_loop_spec (m : gmap BodyRef Body) (ws : gmap WorldRef World)
    (body : BodyRef) (A : Body) (group : list BodyRef) (n : nat) :
  ∀ (C : list BodyRef) (evs : list Event) (st' : Store),
    (n ≤ length group)%nat →
    test_loop {| bodyOf := <[body := set_collides C A]> m; worldOf := ws;
                 events := evs |} body group n = Ok st' →
    st' = {| bodyOf :=
               <[body := set_collides
                           (C ++ filter (λ b, hits m body A b)
                                   (reverse (take n group))) A]> m;
             worldOf := ws;
             events := evs ++ test_events m body A (reverse (take n group)) |}.
Proof.
  induction n as [|i IH]; intros C evs st' Hlen Hrun.
  - cbn in Hrun. injection Hrun as <-. cbn. by rewrite !app_nil_r.
  - destruct (lookup_lt_is_Some_2 group i) as [b Hb]; [lia|].
    cbn [test_loop] in Hrun. rewrite Hb in Hrun.
    rewrite (take_S_r _ _ _ Hb), reverse_snoc.
    destruct (decide (body = b)) as [Heq|Hne].
    + cbn in Hrun. apply IH in Hrun; [|lia]. subst st' b.
      rewrite test_events_self.
      rewrite filter_cons_False; [done|].
      rewrite hits_self. cbn. tauto.
    + rewrite (test_events_other _ _ _ _ _ Hne).
      unfold get_body in Hrun. cbn in Hrun.
      rewrite lookup_insert_eq in Hrun. cbn in Hrun.
      rewrite lookup_insert_ne in Hrun by done.
      destruct (m !! b) as [B|] eqn:HB; [|done]. cbn in Hrun.
      rewrite hitTest_set_collides in Hrun.
      destruct (hitTest A B) as [h|e] eqn:Hh; [|done]. cbn in Hrun.
      assert (Hhits : hits m body A b = h).
      { unfold hits. rewrite decide_False by done. by rewrite HB, Hh. }
      rewrite Hhits.
      destruct h; cbn in Hrun.
      * unfold put_body, log in Hrun. cbn in Hrun.
        rewrite insert_insert_eq in Hrun.
        change (set_collides (C ++ [b]) (set_collides C A))
          with (set_collides (C ++ [b]) A) in Hrun.
        apply IH in Hrun; [|lia]. subst st'.
        rewrite filter_cons_True by (cbn; by rewrite Hhits).
        cbn. by rewrite <- !app_assoc.
      * apply IH in Hrun; [|lia]. subst st'.
        rewrite filter_cons_False by (cbn; rewrite Hhits; cbn; tauto).
        cbn. by rewrite <- !app_assoc.
Qed.

(** [hitResponse] leaves [_collides] alone and logs no hit test and no
    further response. *)
Lemma hitResponse_inv (st : Store) (a b : BodyRef) (st' : Store) (r : bool) :
  hitResponse st a b = Ok (st', r) →
  ∃ A A' evs,
    bodyOf st !! a = Some A ∧ bodyOf st' !! a = Some A' ∧
    _collides A' = _collides A ∧
    events st' = events st ++ evs ∧
    response_targets evs = [] ∧ hit_tests evs = [].
Proof.
  unfold hitResponse, get_body.
  destruct (bodyOf st !! a) as [A|] eqn:HA; [|done]. cbn.
  destruct (bodyOf st !! b) as [B|] eqn:HB; [|done]. cbn.
  assert (Hresp : ∀ arg p,
    (let '(st1, accepted) := call_collide st a b arg in
     if accepted : bool then Ok (put_body a (set_position p A) st1, true)
     else Ok (st1, false)) = Ok (st', r) →
    ∃ A0 A' evs,
      Some A = Some A0 ∧ bodyOf st' !! a = Some A' ∧
      _collides A' = _collides A0 ∧ events st' = events st ++ evs ∧
      response_targets evs = [] ∧ hit_tests evs = []).
  { intros arg p. unfold call_collide.
    destruct (Body_collide st a b arg); intros [= <- <-]; cbn.
    - exists A, (set_position p A), [EvCollide a b arg]%list.
      by rewrite lookup_insert_eq.
    - by exists A, A, [EvCollide a b arg]%list. }
  destruct (both_truthy A B Shape_width Shape_width) as [[|]|]; [| |done]; cbn.
  - destruct (shape_num A Shape_height); [|done]. cbn.
    destruct (shape_num B Shape_height); [|done]. cbn.
    destruct (shape_num A Shape_width); [|done]. cbn.
    destruct (shape_num B Shape_width); [|done]. cbn.
    repeat (destruct (decide _); [by apply Hresp|]).
    unfold call_collide. intros [= <- <-]. cbn.
    by exists A, A, [EvCollide a b NoArg]%list.
  - destruct (both_truthy A B Shape_radius Shape_radius) as [[|]|]; [| |done]; cbn.
    + destruct (shape_num A Shape_radius); [|done]. cbn.
      destruct (shape_num B Shape_radius); [|done]. cbn.
      by apply Hresp.
    + intros [= <- <-]. exists A, A, []%list. by rewrite app_nil_r.
Qed.

(** The second loop: from index [n - 1] down to 0 of [_collides], one call
    of [hitResponse] per entry, and no hit test. *)
Lemma respond_loop_spec (body : BodyRef) (n : nat) :
  ∀ (st st' : Store) (A : Body),
    bodyOf st !! body = Some A →
    (n ≤ length (_collides A))%nat →
    respond_loop st body n = Ok st' →
    ∃ A' evs,
      bodyOf st' !! body = Some A' ∧ _collides A' = _collides A ∧
      events st' = events st ++ evs ∧
      response_targets evs = reverse (take n (_collides A)) ∧
      hit_tests evs = [].
Proof.
  induction n as [|i IH]; intros st st' A HA Hlen Hrun.
  - injection Hrun as <-. exists A, []%list. by rewrite app_nil_r.
  - destruct (lookup_lt_is_Some_2 (_collides A) i) as [b Hb]; [lia|].
    cbn [respond_loop] in Hrun. unfold get_body in Hrun.
    rewrite HA in Hrun. cbn in Hrun. rewrite Hb in Hrun.
    destruct (hitResponse (log (EvHitResponse body b) st) body b)
      as [[st1 r]|e] eqn:Hresp; [|done]. cbn in Hrun.
    apply hitResponse_inv in Hresp
      as (A0 & A1 & evs1 & HA0 & HA1 & HC1 & Hev1 & Hrt1 & Hht1).
    cbn in HA0, Hev1. rewrite HA in HA0. injection HA0 as <-.
    set (st2 := if r then log (EvAfterCollide body b) st1 else st1) in Hrun.
    assert (HA2 : bodyOf st2 !! body = Some A1) by (subst st2; by destruct r).
    assert (Hev2 : ∃ evs2, events st2 = events st1 ++ evs2 ∧
                           response_targets evs2 = [] ∧ hit_tests evs2 = []).
    { subst st2. destruct r.
      - by exists [EvAfterCollide body b]%list.
      - exists []%list. by rewrite app_nil_r. }
    destruct Hev2 as (evs2 & Hev2 & Hrt2 & Hht2).
    apply (IH _ _ A1 HA2) in Hrun as (A' & evs & HA' & HC' & Hev & Hrt & Hht);
      [|rewrite HC1; lia].
    exists A', ([EvHitResponse body b] ++ evs1 ++ evs2 ++ evs)%list.
    split; [done|]. split; [congruence|].
    split; [rewrite Hev, Hev2, Hev1; by rewrite <- !app_assoc|].
    split.
    + rewrite !response_targets_app, Hrt1, Hrt2, Hrt, HC1. cbn.
      by rewrite (take_S_r _ _ _ Hb), reverse_snoc.
    + rewrite !hit_tests_app, Hht1, Hht2, Hht. done.
Qed.

(** One group: all the hit tests, against the state [body] has on entry,
    then one response per hit, in the order of the group, which is the
    reverse of the order of [_collides]. *)
Lemma collide_group_spec (w : WorldRef) (body : BodyRef) (st : Store) (key : Z)
    (st' : Store) (A : Body) (W : World) (group : list BodyRef) :
  bodyOf st !! body = Some A →
  worldOf st !! w = Some W →
  collisionGroups W !! key = Some group →
  collide_group w body st key = Ok st' →
  ∃ resps A',
    events st'
    = events st ++ test_events (bodyOf st) body A (reverse group) ++ resps ∧
    hit_tests resps = [] ∧
    response_targets resps = filter (λ b, hits (bodyOf st) body A b) group ∧
    bodyOf st' !! body = Some A' ∧
    _collides A' = reverse (response_targets resps).
Proof.
  intros HA HW Hg. unfold collide_group, get_body, get_world.
  rewrite HA. cbn. rewrite HW. cbn. rewrite Hg.
  unfold put_body.
  destruct (test_loop _ body group (length group)) as [st2|e] eqn:Htest;
    [|done].
  apply test_loop_spec in Htest; [|done].
  rewrite take_ge in Htest by done. cbn in Htest. subst st2. cbn.
  rewrite lookup_insert_eq. cbn.
  set (C := filter _ (reverse group)).
  intros Hresp.
  eapply (respond_loop_spec body _ _ _ (set_collides C A)) in Hresp;
    [|by cbn; rewrite lookup_insert_eq|done].
  destruct Hresp as (A' & evs & HA' & HC' & Hev & Hrt & Hht).
  cbn in HC', Hev, Hrt. rewrite take_ge in Hrt by done.
  exists evs, A'.
  split; [by rewrite Hev, <- app_assoc|].
  split; [done|].
  assert (Hfilter : reverse C = filter (λ b, hits (bodyOf st) body A b) group).
  { subst C. by rewrite filter_reverse, reverse_involutive. }
  split; [by rewrite Hrt|].
  split; [done|].
  by rewrite HC', Hrt, reverse_involutive.
Qed.

Lemma collide_groups_throw (w : WorldRef) (body : BodyRef) (e : Error)
    (keys : list Z) :
  foldl (λ acc key, st' ← acc; collide_group w body st' key) (Throw e) keys
  = Throw e.
Proof. induction keys as [|k ks IH]; [done|]. cbn. exact IH. Qed.

Lemma collide_groups_cons (w : WorldRef) (body : BodyRef) (st : Store)
    (key : Z) (keys : list Z) :
  collide_groups w body st (key :: keys)
  = st1 ← collide_group w body st key; collide_groups w body st1 keys.
Proof.
  unfold collide_groups. cbn.
  destruct (collide_group w body st key); [done|].
  cbn. apply collide_groups_throw.
Qed.

Lemma collide_groups_app (w : WorldRef) (body : BodyRef) (keys1 keys2 : list Z) :
  ∀ st, collide_groups w body st (keys1 ++ keys2)
        = st1 ← collide_groups w body st keys1; collide_groups w body st1 keys2.
Proof.
  induction keys1 as [|k ks IH]; intros st; [done|].
  rewrite <- app_comm_cons, !collide_groups_cons.
  destruct (collide_group w body st k) as [st1|e]; [|done].
  cbn -[collide_groups]. apply IH.
Qed.

(** C2 (amended). In [World.collide body], the iteration for a group number
    [key] of [body.collideAgainst] (reached in the store [st1], after the
    groups before it) first hit-tests the other members of the group, from
    the last to the first, against the state [body] then has, and pushes
    the hits onto [_collides]; only then does it call [hitResponse], once
    per collected member, from the last collected to the first: the
    responses run in the order of the group, the reverse of the order of
    collection, and no hit test of this group follows a response. *)
Theorem World_collide_two_phase (st : Store) (w : WorldRef) (body : BodyRef)
    (st' : Store) (A : Body) (keys1 keys2 : list Z) (key : Z) :
  bodyOf st !! body = Some A →
  collideAgainst A = keys1 ++ key :: keys2 →
  World_collide st w body = Ok st' →
  ∃ st1 st2 A1,
    collide_groups w body st keys1 = Ok st1 ∧
    collide_group w body st1 key = Ok st2 ∧
    collide_groups w body st2 keys2 = Ok st' ∧
    bodyOf st1 !! body = Some A1 ∧
    ∀ W group,
      worldOf st1 !! w = Some W → collisionGroups W !! key = Some group →
      ∃ resps A2,
        events st2
        = events st1 ++ test_events (bodyOf st1) body A1 (reverse group)
          ++ resps ∧
        hit_tests resps = [] ∧
        response_targets resps
        = filter (λ b, hits (bodyOf st1) body A1 b) group ∧
        bodyOf st2 !! body = Some A2 ∧
        _collides A2 = reverse (response_targets resps).
Proof.
  intros HA Hkeys. unfold World_collide, get_body. rewrite HA.
  cbn -[collide_groups]. rewrite Hkeys, collide_groups_app.
  destruct (collide_groups w body st keys1) as [st1|e] eqn:H1; [|done].
  cbn -[collide_groups]. rewrite collide_groups_cons.
  destruct (collide_group w body st1 key) as [st2|e] eqn:H2; [|done].
  cbn -[collide_groups]. intros H3. exists st1, st2.
  assert (HA1 : ∃ A1, bodyOf st1 !! body = Some A1).
  { unfold collide_group, get_body in H2.
    destruct (bodyOf st1 !! body) as [A1|]; [eauto|done]. }
  destruct HA1 as [A1 HA1]. exists A1.
  repeat split; try done.
  intros W group HW Hg. by eapply collide_group_spec.
Qed.

End Solver.

(** *** Adding a body that has an owner *)

(** C3 (amended). [Body.addTo] on a body that belongs to a world changes
    nothing: the store is the same, so the owner is the same and the body is
    in no more lists than before.  [World.addBody], called directly, has no
    such guard: see [World_addBody_owned_inserts_again]. *)
Theorem Body_addTo_owned (st : Store) (body : BodyRef) (w : WorldRef) (B : Body) :
  bodyOf st !! body = Some B → is_Some (world B) →
  Body_addTo st body w = Ok st.
Proof.
  intros HB [w0 Hw]. unfold Body_addTo, get_body. rewrite HB. cbn.
  by rewrite Hw.
Qed.

(** *** Concrete runs *)

Section Examples.
#[local] Existing Instance sample_math.
#[local] Existing Instance default_hooks.

Definition result_or {A : Type} (d : A) (r : result A) : A :=
  match r with Ok a => a | Throw _ => d end.

(** [new Body({ shape: s, position: new Vector(px, py) })]. *)
Definition shaped (s : Shape) (px py : Qc) : Properties :=
  {| p_world := None; p_shape := Some (Some s);
     p_position := Some (Vector.new px py); p_last := None;
     p_velocity := None; p_velocityLimit := None; p_mass := None;
     p_collisionGroup := None; p_collideAgainst := None; p_force := None;
     p_damping := None |}.

Definition in_group (k : Z) (against : list Z) (p : Properties) : Properties :=
  {| p_world := p_world p; p_shape := p_shape p; p_position := p_position p;
     p_last := p_last p; p_velocity := p_velocity p;
     p_velocityLimit := p_velocityLimit p; p_mass := p_mass p;
     p_collisionGroup := Some (Some k); p_collideAgainst := Some against;
     p_force := p_force p; p_damping := p_damping p |}.

Definition with_last (lx ly : Qc) (p : Properties) : Properties :=
  {| p_world := p_world p; p_shape := p_shape p; p_position := p_position p;
     p_last := Some (Vector.new lx ly); p_velocity := p_velocity p;
     p_velocityLimit := p_velocityLimit p; p_mass := p_mass p;
     p_collisionGroup := p_collisionGroup p;
     p_collideAgainst := p_collideAgainst p;
     p_force := p_force p; p_damping := p_damping p |}.

Definition moving (vx vy : Qc) (limit : option Vector.t) (m : Qc) : Properties :=
  {| p_world := None; p_shape := None; p_position := None; p_last := None;
     p_velocity := Some (Vector.new vx vy); p_velocityLimit := limit;
     p_mass := Some m; p_collisionGroup := None; p_collideAgainst := None;
     p_force := None; p_damping := None |}.

Definition store_of (bs : list (BodyRef * Body)) (ws : list (WorldRef * World))
  : Store :=
  {| bodyOf := list_to_map bs; worldOf := list_to_map ws; events := [] |}.

(** **** Hit tests *)

(** A body as [new Body()] leaves it: no shape. *)
Definition bare : Body := Body_new no_properties.
Definition square : Body := Body_new (shaped (Rectangle (num 10) (num 10)) 0 0).
Definition odd : Body := Body_new (shaped OtherShape 0 0).

(** C1, counterexample: with a missing shape on either side of a rectangle,
    or on both sides, [hitTest] raises a [TypeError]. *)
Lemma hitTest_missing_shape_throws :
  shape bare = None ∧
  hitTest bare square = Throw TypeError ∧
  hitTest square bare = Throw TypeError ∧
  hitTest bare bare = Throw TypeError.
Proof. repeat split; vm_compute; reflexivity. Qed.

Lemma hitTest_unknown_shape_witness :
  hitTest odd bare = Ok false ∧ hitTest square odd = Ok false.
Proof.
  split.
  - apply (hitTest_unknown_shape odd bare). left. reflexivity.
  - apply (hitTest_unknown_shape square odd). right.
    split; [eexists|]; reflexivity.
Defined.

(** Two squares of side 10 that touch along the line [x = 5]. *)
Definition square_right : Body :=
  Body_new (shaped (Rectangle (num 10) (num 10)) (num 10) 0).

Lemma hitTest_symmetric_witness :
  hitTest square square_right = hitTest square_right square ∧
  hitTest square square_right = Ok false.
Proof.
  destruct (hitTest_symmetric square square_right) as [Hrect _].
  destruct (Hrect (num 10) (num 10) (num 10) (num 10)) as [Hsym Hedge];
    [reflexivity | reflexivity |].
  split; [exact Hsym|]. apply Hedge.
  apply Qc_is_canon. vm_compute. reflexivity.
Defined.

(** **** Collisions *)

(** A world with three squares of side 10, added in the order 1, 2, 3:
    body 1, at the origin, is in group 1 and collides against group 0, whose
    members, in order, are the bodies 2 and 3, at (2, 0) and (0, 2).  Both
    overlap body 1. *)
Definition mover_properties : Properties :=
  in_group 1 [0%Z] (shaped (Rectangle (num 10) (num 10)) 0 0).
Definition target2 : Body :=
  Body_new (in_group 0 [] (shaped (Rectangle (num 10) (num 10)) (num 2) 0)).
Definition target3 : Body :=
  Body_new (in_group 0 [] (shaped (Rectangle (num 10) (num 10)) 0 (num 2))).

Definition arena0 : Store :=
  store_of [(1%positive, Body_new mover_properties); (2%positive, target2);
            (3%positive, target3)]
    [(1%positive, World_new 0 (num 980))].

Definition arena : Store :=
  result_or arena0
    (st1 ← Body_addTo arena0 1%positive 1%positive;
     st2 ← Body_addTo st1 2%positive 1%positive;
     Body_addTo st2 3%positive 1%positive).

(** Body 1 once it is in the world. *)
Definition mover : Body :=
  set_owner (Some 1%positive) false (Body_new mover_properties).

Definition arena_after : Store :=
  result_or arena (World_collide arena 1%positive 1%positive).

(** C2, counterexample: the hits are collected in the order 3, 2 and the
    responses run in the order 2, 3. *)
Lemma responses_reverse_collection :
  World_collide arena 1%positive 1%positive = Ok arena_after ∧
  (_collides <$> bodyOf arena_after !! 1%positive)
  = Some [3%positive; 2%positive] ∧
  response_targets (events arena_after) = [2%positive; 3%positive].
Proof. repeat split; vm_compute; reflexivity. Qed.

Lemma World_collide_two_phase_witness :
  ∃ st2 resps A2,
    collide_group 1%positive 1%positive arena 0%Z = Ok st2 ∧
    events st2
    = test_events (bodyOf arena) 1%positive mover [3%positive; 2%positive]
      ++ resps ∧
    hit_tests resps = [] ∧
    response_targets resps = [2%positive; 3%positive] ∧
    bodyOf st2 !! 1%positive = Some A2 ∧
    _collides A2 = [3%positive; 2%positive].
Proof.
  destruct (World_collide_two_phase arena 1%positive 1%positive arena_after
              mover [] [] 0%Z)
    as (st1 & st2 & A1 & H1 & H2 & _ & HA1 & Hphase).
  - vm_compute. reflexivity.
  - reflexivity.
  - vm_compute. reflexivity.
  - injection H1 as <-.
    assert (Hmover : bodyOf arena !! 1%positive = Some mover)
      by (vm_compute; reflexivity).
    rewrite Hmover in HA1. injection HA1 as <-.
    destruct (worldOf arena !! 1%positive) as [W|] eqn:HW;
      [|by vm_compute in HW].
    destruct (Hphase W [2%positive; 3%positive] eq_refl)
      as (resps & A2 & Hev & Hht & Hrt & HA2 & HC).
    { vm_compute in HW. injection HW as <-. reflexivity. }
    exists st2, resps, A2.
    repeat split; try done.
    rewrite HC, Hrt. reflexivity.
Defined.

(** **** Adding a body twice *)

(** Two worlds and a body, in group 0, that has been added to world 1. *)
Definition two_worlds : Store :=
  store_of [(1%positive, Body_new (in_group 0 [] no_properties))]
    [(1%positive, World_new 0 (num 980)); (2%positive, World_new 0 (num 980))].

Definition owned : Store :=
  result_or two_worlds (Body_addTo two_worlds 1%positive 1%positive).
Definition added_again : Store :=
  result_or owned (World_addBody owned 1%positive 1%positive).
Definition added_elsewhere : Store :=
  result_or owned (World_addBody owned 2%positive 1%positive).

(** C3, counterexample: [World.addBody] on a body that belongs to world 1
    pushes it a second time onto [bodies] of world 1, and, called on world
    2, makes world 2 its owner; only the collision group is kept free of
    duplicates. *)
Lemma World_addBody_owned_inserts_again :
  (world <$> bodyOf owned !! 1%positive) = Some (Some 1%positive) ∧
  (bodies <$> worldOf owned !! 1%positive) = Some [1%positive]%list ∧
  World_addBody owned 1%positive 1%positive = Ok added_again ∧
  (bodies <$> worldOf added_again !! 1%positive)
  = Some [1%positive; 1%positive] ∧
  ((λ W, collisionGroups W !! 0%Z) <$> worldOf added_again !! 1%positive)
  = Some (Some [1%positive]%list) ∧
  World_addBody owned 2%positive 1%positive = Ok added_elsewhere ∧
  (world <$> bodyOf added_elsewhere !! 1%positive) = Some (Some 2%positive) ∧
  (bodies <$> worldOf added_elsewhere !! 2%positive) = Some [1%positive]%list.
Proof. repeat split; vm_compute; reflexivity. Qed.

Lemma Body_addTo_owned_witness :
  Body_addTo owned 1%positive 2%positive = Ok owned.
Proof.
  apply (Body_addTo_owned owned 1%positive 2%positive
           (set_owner (Some 1%positive) false
              (Body_new (in_group 0 [] no_properties)))).
  - vm_compute. reflexivity.
  - eexists. reflexivity.
Defined.

(** **** Landing on a platform *)

(** Body 1, a square of side 10 now at (0, 8) and last at (0, 6), has
    fallen into body 2, a square of side 10 resting at (0, 16). *)
Definition faller : Body :=
  Body_new (with_last 0 (num 6) (shaped (Rectangle (num 10) (num 10)) 0 (num 8))).
Definition platform : Body :=
  Body_new (with_last 0 (num 16)
              (shaped (Rectangle (num 10) (num 10)) 0 (num 16))).
Definition landing : Store :=
  store_of [(1%positive, faller); (2%positive, platform)] [].


(** **** Integration *)

(** A body of mass 1 that was never added to a world. *)
Definition orphan : Store :=
  store_of [(1%positive, Body_new (moving 0 0 None 1))] [].

(** C9, counterexample: [update] on a body with a mass and no world raises
    a [TypeError]. *)
Lemma Body_update_without_world_throws :
  (world <$> bodyOf orphan !! 1%positive) = Some None ∧
  Body_update orphan 1%positive (num 1 / num 2) = Throw TypeError.
Proof. repeat split; vm_compute; reflexivity. Qed.

(** A body of mass 1 added to a world of gravity (0, 980), and a second,
    idle body. *)
Definition falling : Store :=
  result_or orphan
    (Body_addTo
       (store_of [(1%positive, Body_new (moving 0 0 None 1)); (2%positive, bare)]
          [(1%positive, World_new 0 (num 980))])
       1%positive 1%positive).
Definition heavy : Body :=
  set_owner (Some 1%positive) false (Body_new (moving 0 0 None 1)).

Lemma Body_update_safe_witness :
  ∃ st', Body_update falling 1%positive (num 1 / num 2) = Ok st' ∧
         bodyOf st' !! 2%positive = Some bare ∧
         worldOf st' = worldOf falling.
Proof.
  destruct (Body_update_safe falling 1%positive (num 1 / num 2) heavy)
    as (st' & B' & Hup & _ & _ & Hw & _ & Hframe & _).
  - vm_compute. reflexivity.
  - right. eexists. vm_compute. reflexivity.
  - exists st'. split; [exact Hup|]. split; [|exact Hw].
    rewrite Hframe by done. vm_compute. reflexivity.
Defined.





End Examples.

End Physics.

(** ** Rectangles over doubles *)

(** JavaScript numbers are IEEE 754 doubles.  This module repeats the
    rectangle branches of the solver over them, to show where rounding
    departs from the exact arithmetic of [Physics]. *)
Module Doubles.
Import PrimFloat.
Set Warnings "-inexact-float".

(** A body whose shape is a [Rectangle]: the numbers the solver reads. *)
Record Box := {
  position_x : float;
  position_y : float;
  last_x : float;
  last_y : float;
  width : float;
  height : float
}.

Definition set_position_x (v : float) (a : Box) : Box :=
  {| position_x := v; position_y := position_y a; last_x := last_x a;
     last_y := last_y a; width := width a; height := height a |}.

Definition set_position_y (v : float) (a : Box) : Box :=
  {| position_x := position_x a; position_y := v; last_x := last_x a;
     last_y := last_y a; width := width a; height := height a |}.

(** A number used as a condition: [0], [-0] and [NaN] are falsy. *)
Definition truthy (v : float) : bool := negb (v =? 0)%float && negb (is_nan v).

(** [CollisionSolver.prototype.hitTest] on two such bodies: their shapes
    have no [radius], so only the first branch can be taken. *)
Definition hitTest (a b : Box) : bool :=
  if truthy (width a) && truthy (width b) then
    negb ((position_y a + height a / 2 <=? position_y b - height b / 2)
          || (position_y b + height b / 2 <=? position_y a - height a / 2)
          || (position_x b + width b / 2 <=? position_x a - width a / 2)
          || (position_x a + width a / 2 <=? position_x b - width b / 2))%float
  else false.

(** [CollisionSolver.prototype.hitResponse] on two such bodies; [collide]
    is the answer of [a.collide(b, direction)], [None] standing for the call
    without direction. *)
Definition hitResponse (collide : option Physics.Direction → bool) (a b : Box)
  : Box * bool :=
  if truthy (width a) && truthy (width b) then
    if (last_y a + height a / 2 <=? last_y b - height b / 2)%float then
      if collide (Some Physics.DOWN)
      then (set_position_y (position_y b - height b / 2 - height a / 2)%float a,
            true)
      else (a, false)
    else if (last_y b + height b / 2 <=? last_y a - height a / 2)%float then
      if collide (Some Physics.UP)
      then (set_position_y (position_y b + height b / 2 + height a / 2)%float a,
            true)
      else (a, false)
    else if (last_x a + width a / 2 <=? last_x b - width b / 2)%float then
      if collide (Some Physics.RIGHT)
      then (set_position_x (position_x b - width b / 2 - width a / 2)%float a,
            true)
      else (a, false)
    else if (last_x b + width b / 2 <=? last_x a - width a / 2)%float then
      if collide (Some Physics.LEFT)
      then (set_position_x (position_x b + width b / 2 + width a / 2)%float a,
            true)
      else (a, false)
    else (a, collide None)
  else (a, false).

(** A rectangle of height 1.1 that has come down from y = -1.5 to y = -0.45
    onto a rectangle of height 0.1 at y = 0.1. *)
Definition faller : Box :=
  {| position_x := 0; position_y := -0.45; last_x := 0; last_y := -1.5;
     width := 10; height := 1.1 |}.
Definition platform : Box :=
  {| position_x := 0; position_y := 0.1; last_x := 0; last_y := 0.1;
     width := 10; height := 0.1 |}.
Definition landed : Box := (hitResponse (λ _, true) faller platform).1.


Set Warnings "inexact-float".
End Doubles.

(** ** More of the collision solver *)

Module Solver.
Import Physics.

Section Facts.
Context `{M : MathLib} `{H : Hooks}.

(** A body with its position written back is the same body. *)
Lemma set_position_id (A : Body) : set_position (position A) A = A.
Proof. by destruct A. Qed.

(** *** The hit test on any two shapes *)

Lemma hitTest_swap (A B : Body) :
  is_Some (shape A) → is_Some (shape B) → hitTest A B = hitTest B A.
Proof.
  intros [sa HA] [sb HB].
  unfold hitTest, both_truthy, shape_num, shape_prop. rewrite HA, HB.
  destruct sa as [aw ah|ar|], sb as [bw bh|br|]; cbn;
    repeat (match goal with
            | |- context [bool_decide (?q ≠ 0)] =>
                destruct (bool_decide (q ≠ 0))
            end; cbn);
    rewrite ?HA, ?HB; cbn; try done.
  - f_equal. f_equal.
    repeat match goal with |- context [bool_decide ?P] =>
      destruct (bool_decide P) end; done.
  - by rewrite Vector.distance_sym, (Qcplus_comm ar br).
Qed.

(** X1. When both bodies have a shape, of whatever kind, [hitTest] does not
    depend on the order of its arguments: the mixed case picks the
    rectangle and the circle by their properties, not by their position in
    the call. *)
Theorem hitTest_comm (A B : Body) :
  is_Some (shape A) → is_Some (shape B) → hitTest A B = hitTest B A.
Proof. apply hitTest_swap. Qed.

Lemma Qcabs_lt_condition (x y : Qc) : Qcabs x < y ↔ - y < x ∧ x < y.
Proof.
  destruct (Qclt_le_dec x 0) as [Hneg|Hpos].
  - rewrite Qcabs_neg by (by apply Qclt_le_weak).
    split; [intros Hlt; split|intros [Hlo Hhi]]; qc_lra.
  - rewrite Qcabs_pos by done.
    split; [intros Hlt; split|intros [Hlo Hhi]]; qc_lra.
Qed.

(** X2. In exact arithmetic, two rectangles of widths other than 0 hit
    exactly when their centres are closer than the sum of the half extents
    on both axes (strictly: touching edges do not hit). *)
Theorem hitTest_rectangles (A B : Body) (aw ah bw bh : Qc) :
  shape A = Some (Rectangle aw ah) → shape B = Some (Rectangle bw bh) →
  aw ≠ 0 → bw ≠ 0 →
  hitTest A B =
    Ok (bool_decide
          (Qcabs (Vector.x (position A) - Vector.x (position B))
             < aw / num 2 + bw / num 2
           ∧ Qcabs (Vector.y (position A) - Vector.y (position B))
               < ah / num 2 + bh / num 2)).
Proof.
  intros HA HB Haw Hbw.
  unfold hitTest, both_truthy, shape_num, shape_prop. rewrite HA, HB. cbn.
  rewrite (bool_decide_eq_true_2 _ Haw), (bool_decide_eq_true_2 _ Hbw). cbn.
  f_equal.
  generalize (Vector.x (position A)) (Vector.y (position A))
             (Vector.x (position B)) (Vector.y (position B)).
  intros ax ay bx by_.
  match goal with |- _ = bool_decide ?P => destruct (bool_decide P) eqn:HP end.
  - apply bool_decide_eq_true_1 in HP. rewrite !Qcabs_lt_condition in HP.
    destruct HP as [[Hx1 Hx2] [Hy1 Hy2]].
    rewrite !bool_decide_eq_false_2; [done|..]; intros Hsep; qc_lra.
  - apply bool_decide_eq_false_1 in HP. rewrite !Qcabs_lt_condition in HP.
    repeat case_bool_decide; cbn; try done.
    exfalso. apply HP.
    repeat match goal with
           | Hn : ¬ (_ ≤ _) |- _ => apply Qcnot_le_lt in Hn
           end.
    repeat split; qc_lra.
Qed.

(** X3. A rectangle of width 0 and a circle of radius 0 count as no shape:
    such a body hits nothing, on either side of the test (on the first side
    even a body without shape). *)
Theorem hitTest_degenerate (A B : Body) (h : Qc) :
  shape A = Some (Rectangle 0 h) ∨ shape A = Some (Circle 0) →
  hitTest A B = Ok false ∧ (is_Some (shape B) → hitTest B A = Ok false).
Proof.
  intros HA.
  assert (HAB : hitTest A B = Ok false).
  { unfold hitTest, both_truthy, shape_num, shape_prop.
    destruct HA as [-> | ->]; cbn; done. }
  split; [done|]. intros HB.
  rewrite <- HAB. apply hitTest_swap; [done|].
  destruct HA as [-> | ->]; eauto.
Qed.

(** *** The hit response on any two shapes *)

(** What a call of [hitResponse] that returns has done: nothing at all
    (no pair of rectangles or of circles), only a call of the hook (a veto,
    or the "inside" case, which moves nothing), or a call of the hook
    followed by a new position of [a]. *)
Lemma hitResponse_cases (st : Store) (a b : BodyRef) (st' : Store) (r : bool) :
  hitResponse st a b = Ok (st', r) →
  ∃ A, bodyOf st !! a = Some A ∧
    ((st' = st ∧ r = false)
     ∨ (∃ arg, st' = log (EvCollide a b arg) st ∧
               r = Body_collide st a b arg ∧ (r = true → arg = NoArg))
     ∨ (∃ arg p, st' = put_body a (set_position p A) (log (EvCollide a b arg) st)
                 ∧ r = true)).
Proof.
  unfold hitResponse, get_body.
  destruct (bodyOf st !! a) as [A|] eqn:HA; [|done]. cbn.
  destruct (bodyOf st !! b) as [B|] eqn:HB; [|done]. cbn.
  intros Hrun. exists A. split; [done|]. revert Hrun.
  assert (Hresp : ∀ arg p,
    (let '(st1, accepted) := call_collide st a b arg in
     if accepted : bool then Ok (put_body a (set_position p A) st1, true)
     else Ok (st1, false)) = Ok (st', r) →
    (st' = st ∧ r = false)
    ∨ (∃ arg, st' = log (EvCollide a b arg) st ∧
              r = Body_collide st a b arg ∧ (r = true → arg = NoArg))
    ∨ (∃ arg p, st' = put_body a (set_position p A) (log (EvCollide a b arg) st)
                ∧ r = true)).
  { intros arg p. unfold call_collide.
    destruct (Body_collide st a b arg) eqn:Hacc; intros [= <- <-].
    - right. right. by exists arg, p.
    - right. left. exists arg. by rewrite Hacc. }
  destruct (both_truthy A B Shape_width Shape_width) as [[|]|]; [| |done]; cbn.
  - destruct (shape_num A Shape_height); [|done]. cbn.
    destruct (shape_num B Shape_height); [|done]. cbn.
    destruct (shape_num A Shape_width); [|done]. cbn.
    destruct (shape_num B Shape_width); [|done]. cbn.
    repeat (destruct (decide _); [by apply Hresp|]).
    unfold call_collide. intros [= <- <-]. right. left. by exists NoArg.
  - destruct (both_truthy A B Shape_radius Shape_radius) as [[|]|]; [| |done]; cbn.
    + destruct (shape_num A Shape_radius); [|done]. cbn.
      destruct (shape_num B Shape_radius); [|done]. cbn.
      by apply Hresp.
    + intros [= <- <-]. by left.
Qed.

(** X4. [hitResponse a b] writes nothing but the position of [a]: the
    worlds and every other body, [b] included, are as before, and of [a]
    only [position] can differ; when it returns [false] (a veto of the
    hook, or shapes it has no response for) no body has moved. *)
Theorem hitResponse_frame (st : Store) (a b : BodyRef) (st' : Store) (r : bool) :
  hitResponse st a b = Ok (st', r) →
  worldOf st' = worldOf st ∧
  (∀ x, x ≠ a → bodyOf st' !! x = bodyOf st !! x) ∧
  (∃ A p, bodyOf st !! a = Some A ∧ bodyOf st' !! a = Some (set_position p A)) ∧
  (r = false → bodyOf st' = bodyOf st).
Proof.
  intros Hrun.
  destruct (hitResponse_cases _ _ _ _ _ Hrun)
    as (A & HA & [[-> ->] | [(arg & -> & Hr & Hin) | (arg & p & -> & ->)]]).
  - repeat split; try done. exists A, (position A). by rewrite set_position_id.
  - repeat split; try done. exists A, (position A). by rewrite set_position_id.
  - cbn. repeat split; try done.
    + intros x Hx. by rewrite lookup_insert_ne.
    + exists A, p. by rewrite lookup_insert_eq.
Qed.

(** X5. A rectangle against a circle, in either order, gets no response:
    [hitResponse] returns [false], calls no hook and changes nothing,
    whether or not the two overlap. *)
Theorem hitResponse_mixed (st : Store) (a b : BodyRef) (A B : Body)
    (w h r : Qc) :
  bodyOf st !! a = Some A → bodyOf st !! b = Some B →
  shape A = Some (Rectangle w h) → shape B = Some (Circle r) →
  hitResponse st a b = Ok (st, false) ∧ hitResponse st b a = Ok (st, false).
Proof.
  intros Ha Hb HA HB.
  unfold hitResponse, get_body, both_truthy, shape_num, shape_prop.
  rewrite Ha, Hb. cbn. rewrite HA, HB. cbn.
  split.
  - by destruct (bool_decide (w ≠ 0)).
  - by destruct (bool_decide (r ≠ 0)).
Qed.

(** None of the four separations that [hitResponse] looks for at the last
    positions of two rectangles holds. *)
Definition overlapped_before (A B : Body) (aw ah bw bh : Qc) : Prop :=
  ¬ Vector.y (last A) + ah / num 2 ≤ Vector.y (last B) - bh / num 2
  ∧ ¬ Vector.y (last B) + bh / num 2 ≤ Vector.y (last A) - ah / num 2
  ∧ ¬ Vector.x (last A) + aw / num 2 ≤ Vector.x (last B) - bw / num 2
  ∧ ¬ Vector.x (last B) + bw / num 2 ≤ Vector.x (last A) - aw / num 2.

(** X6. Two rectangles, a response that returns [true]: either [a] has
    been pushed out and no longer hits [b], whichever of the four
    directions was resolved, or the two already overlapped at their last
    positions (none of the four separations held) and [a] has not moved. *)
Theorem hitResponse_separates (st : Store) (a b : BodyRef) (A B : Body)
    (aw ah bw bh : Qc) (st' : Store) :
  bodyOf st !! a = Some A → bodyOf st !! b = Some B → a ≠ b →
  shape A = Some (Rectangle aw ah) → shape B = Some (Rectangle bw bh) →
  hitResponse st a b = Ok (st', true) →
  ∃ A', bodyOf st' !! a = Some A' ∧ bodyOf st' !! b = Some B ∧
    (hitTest A' B = Ok false
     ∨ (A' = A ∧ overlapped_before A B aw ah bw bh)).
Proof.
  intros Ha Hb Hab HA HB.
  unfold hitResponse, get_body. rewrite Ha, Hb. cbn.
  unfold both_truthy, shape_num, shape_prop. rewrite HA, HB. cbn.
  destruct (decide (aw ≠ 0)) as [Haw|Haw];
    [rewrite (bool_decide_eq_true_2 _ Haw)
    |rewrite (bool_decide_eq_false_2 _ Haw); done].
  cbn.
  destruct (decide (bw ≠ 0)) as [Hbw|Hbw];
    [rewrite (bool_decide_eq_true_2 _ Hbw)
    |rewrite (bool_decide_eq_false_2 _ Hbw); done].
  cbn.
  assert (Hmoved : ∀ arg p,
    (let '(st1, accepted) := call_collide st a b arg in
     if accepted : bool then Ok (put_body a (set_position p A) st1, true)
     else Ok (st1, false)) = Ok (st', true) →
    hitTest (set_position p A) B = Ok false →
    ∃ A', bodyOf st' !! a = Some A' ∧ bodyOf st' !! b = Some B ∧
          (hitTest A' B = Ok false ∨ (A' = A ∧ overlapped_before A B aw ah bw bh))).
  { intros arg p. unfold call_collide.
    destruct (Body_collide st a b arg); intros [= <-] Hclear.
    exists (set_position p A). cbn.
    rewrite lookup_insert_eq, lookup_insert_ne by done. auto. }
  assert (Htest : ∀ p,
    hitTest (set_position p A) B
    = Ok (negb (bool_decide (Vector.y p + ah / num 2
                             ≤ Vector.y (position B) - bh / num 2)
                || bool_decide (Vector.y (position B) + bh / num 2
                                ≤ Vector.y p - ah / num 2)
                || bool_decide (Vector.x (position B) + bw / num 2
                                ≤ Vector.x p - aw / num 2)
                || bool_decide (Vector.x p + aw / num 2
                                ≤ Vector.x (position B) - bw / num 2)))).
  { intros p. unfold hitTest, both_truthy, shape_num, shape_prop. cbn.
    rewrite HA, HB. cbn.
    by rewrite (bool_decide_eq_true_2 _ Haw), (bool_decide_eq_true_2 _ Hbw). }
  destruct (decide _) as [|Hdown].
  { intros Hrun. eapply Hmoved; [exact Hrun|]. rewrite Htest. cbn.
    rewrite (bool_decide_eq_true_2
               (Vector.y (position B) - bh / num 2 - ah / num 2 + ah / num 2
                ≤ Vector.y (position B) - bh / num 2)); [done|].
    generalize (Vector.y (position B)). clear. intros v. qc_lra. }
  destruct (decide _) as [|Hup].
  { intros Hrun. eapply Hmoved; [exact Hrun|]. rewrite Htest. cbn.
    rewrite (bool_decide_eq_true_2
               (Vector.y (position B) + bh / num 2
                ≤ Vector.y (position B) + bh / num 2 + ah / num 2 - ah / num 2));
      [by rewrite !orb_true_r|].
    generalize (Vector.y (position B)). clear. intros v. qc_lra. }
  destruct (decide _) as [|Hright].
  { intros Hrun. eapply Hmoved; [exact Hrun|]. rewrite Htest. cbn.
    rewrite (bool_decide_eq_true_2
               (Vector.x (position B) - bw / num 2 - aw / num 2 + aw / num 2
                ≤ Vector.x (position B) - bw / num 2));
      [by rewrite !orb_true_r|].
    generalize (Vector.x (position B)). clear. intros v. qc_lra. }
  destruct (decide _) as [|Hleft].
  { intros Hrun. eapply Hmoved; [exact Hrun|]. rewrite Htest. cbn.
    rewrite (bool_decide_eq_true_2
               (Vector.x (position B) + bw / num 2
                ≤ Vector.x (position B) + bw / num 2 + aw / num 2 - aw / num 2));
      [by rewrite !orb_true_r|].
    generalize (Vector.x (position B)). clear. intros v. qc_lra. }
  unfold call_collide. intros [= <- _]. exists A. cbn.
  split; [done|]. split; [done|]. right. by repeat split.
Qed.

(** *** What [World.prototype.collide] touches *)

(** The two bodies an event is about. *)
Definition event_pair (e : Event) : BodyRef * BodyRef :=
  match e with
  | EvHitTest a b _ | EvHitResponse a b | EvCollide a b _
  | EvAfterCollide a b => (a, b)
  end.

(** From [st] to [st'] the worlds and all bodies but [body] are the same,
    of [body] only [position] and [_collides] may differ, and every event
    added is about [body] and another body. *)
Definition touches_only (body : BodyRef) (st st' : Store) : Prop :=
  worldOf st' = worldOf st ∧
  (∀ x, x ≠ body → bodyOf st' !! x = bodyOf st !! x) ∧
  (∃ A p C, bodyOf st !! body = Some A ∧
            bodyOf st' !! body = Some (set_collides C (set_position p A))) ∧
  (∃ evs, events st' = events st ++ evs ∧
          Forall (λ e, (event_pair e).1 = body ∧ (event_pair e).2 ≠ body) evs).

Lemma touches_only_refl (body : BodyRef) (st : Store) (A : Body) :
  bodyOf st !! body = Some A → touches_only body st st.
Proof.
  intros HA. repeat split; try done.
  - exists A, (position A), (_collides A). split; [done|]. rewrite HA.
    by destruct A.
  - exists []%list. by rewrite app_nil_r.
Qed.

Lemma touches_only_trans (body : BodyRef) (st1 st2 st3 : Store) :
  touches_only body st1 st2 → touches_only body st2 st3 →
  touches_only body st1 st3.
Proof.
  intros (Hw1 & Ho1 & (A & p1 & C1 & HA1 & HA2) & (e1 & He1 & Hf1))
         (Hw2 & Ho2 & (A2 & p2 & C2 & HA2' & HA3) & (e2 & He2 & Hf2)).
  rewrite HA2 in HA2'. injection HA2' as <-.
  repeat split.
  - congruence.
  - intros x Hx. rewrite Ho2, Ho1; done.
  - by exists A, p2, C2.
  - exists (e1 ++ e2)%list. split; [by rewrite He2, He1, app_assoc|].
    by apply Forall_app.
Qed.

(** Writing [position] or [_collides] of [body], or logging an event about
    [body] and another body, is such a step. *)
Lemma touches_only_put (body : BodyRef) (st : Store) (A : Body) p C :
  bodyOf st !! body = Some A →
  touches_only body st (put_body body (set_collides C (set_position p A)) st).
Proof.
  intros HA. repeat split; try done.
  - intros x Hx. cbn. by rewrite lookup_insert_ne.
  - exists A, p, C. cbn. by rewrite lookup_insert_eq.
  - exists []%list. cbn. by rewrite app_nil_r.
Qed.

Lemma touches_only_log (body : BodyRef) (st : Store) (A : Body) (e : Event) :
  bodyOf st !! body = Some A →
  (event_pair e).1 = body → (event_pair e).2 ≠ body →
  touches_only body st (log e st).
Proof.
  intros HA H1 H2. repeat split; try done.
  - exists A, (position A), (_collides A). split; [done|]. cbn. rewrite HA.
    by destruct A.
  - exists [e]%list. split; [done|]. by apply Forall_singleton.
Qed.

Lemma touches_only_lookup (body : BodyRef) (st st' : Store) :
  touches_only body st st' → is_Some (bodyOf st' !! body).
Proof. intros (_ & _ & (A & p & C & _ & HA') & _). eauto. Qed.

Lemma hitResponse_touches (st : Store) (a b : BodyRef) (st' : Store) (r : bool) :
  a ≠ b → hitResponse st a b = Ok (st', r) →
  touches_only a st st' ∧
  ∃ A A', bodyOf st !! a = Some A ∧ bodyOf st' !! a = Some A' ∧
          _collides A' = _collides A.
Proof.
  intros Hab Hrun.
  destruct (hitResponse_cases _ _ _ _ _ Hrun)
    as (A & HA & [[-> ->] | [(arg & -> & _) | (arg & p & -> & _)]]).
  - split; [by eapply touches_only_refl|]. by exists A, A.
  - split; [by eapply touches_only_log|]. by exists A, A.
  - split.
    + eapply touches_only_trans; [by eapply (touches_only_log a st A (EvCollide a b arg))|].
      assert (Hput := touches_only_put a (log (EvCollide a b arg) st) A p
                        (_collides A) HA).
      replace (set_collides (_collides A) (set_position p A))
        with (set_position p A) in Hput by (by destruct A).
      exact Hput.
    + exists A, (set_position p A). cbn. by rewrite lookup_insert_eq.
Qed.

Lemma respond_loop_touches (body : BodyRef) (n : nat) :
  ∀ (st st' : Store) (A : Body),
    bodyOf st !! body = Some A →
    Forall (λ b, b ≠ body) (_collides A) →
    respond_loop st body n = Ok st' →
    touches_only body st st'.
Proof.
  induction n as [|i IH]; intros st st' A HA Hne Hrun.
  - injection Hrun as <-. by eapply touches_only_refl.
  - cbn [respond_loop] in Hrun. unfold get_body in Hrun.
    rewrite HA in Hrun. cbn in Hrun.
    destruct (_collides A !! i) as [b|] eqn:Hb; [|done].
    assert (Hbne : b ≠ body).
    { eapply Forall_forall in Hne; [done|]. by eapply list_elem_of_lookup_2. }
    destruct (hitResponse (log (EvHitResponse body b) st) body b)
      as [[st1 r]|e] eqn:Hresp; [|done]. cbn in Hrun.
    apply hitResponse_touches in Hresp as [Ht1 (A0 & A1 & HA0 & HA1 & HC)];
      [|done].
    cbn in HA0. rewrite HA in HA0. injection HA0 as <-.
    eapply touches_only_trans;
      [by eapply (touches_only_log body st A (EvHitResponse body b))|].
    eapply touches_only_trans; [exact Ht1|].
    destruct r.
    + eapply touches_only_trans;
        [by eapply (touches_only_log body st1 A1 (EvAfterCollide body b))|].
      eapply (IH _ _ A1); [done|by rewrite HC|done].
    + eapply (IH _ _ A1); [done|by rewrite HC|done].
Qed.

Lemma collide_group_touches (w : WorldRef) (body : BodyRef) (st : Store)
    (key : Z) (st' : Store) :
  collide_group w body st key = Ok st' → touches_only body st st'.
Proof.
  unfold collide_group, get_body, get_world.
  destruct (bodyOf st !! body) as [A|] eqn:HA; [|done]. cbn.
  assert (Hclear : touches_only body st (put_body body (set_collides [] A) st)).
  { assert (Hput := touches_only_put body st A (position A) [] HA).
    by rewrite set_position_id in Hput. }
  destruct (worldOf st !! w) as [W|]; [|done]. cbn.
  destruct (collisionGroups W !! key) as [group|]; [|by intros [= <-]].
  unfold put_body in *.
  destruct (test_loop _ body group (length group)) as [st2|e] eqn:Htest;
    [|done].
  apply test_loop_spec in Htest; [|done].
  rewrite take_ge in Htest by done. cbn in Htest. subst st2. cbn.
  rewrite lookup_insert_eq. cbn.
  set (C := filter _ (reverse group)).
  intros Hresp.
  eapply touches_only_trans; [exact Hclear|].
  eapply touches_only_trans.
  2:{ refine (respond_loop_touches body _ _ _ (set_collides C A) _ _ Hresp);
        [by cbn; rewrite lookup_insert_eq|].
      cbn. subst C. apply Forall_forall. intros b Hb.
      apply list_elem_of_filter in Hb as [Hhit _]. intros ->.
      by rewrite hits_self in Hhit. }
  repeat split; cbn.
  - intros x Hx. by rewrite !lookup_insert_ne.
  - exists (set_collides [] A), (position A), C.
    rewrite !lookup_insert_eq. split; [done|]. by destruct A.
  - eexists. split; [done|].
    generalize (reverse group). intros l.
    induction l as [|b l IHl]; [by constructor|].
    destruct (decide (body = b)) as [<-|Hne].
    + by rewrite test_events_self.
    + rewrite (test_events_other _ _ _ _ _ Hne). by constructor.
Qed.

Lemma collide_groups_touches (w : WorldRef) (body : BodyRef) (keys : list Z) :
  ∀ (st st' : Store) (A : Body),
    bodyOf st !! body = Some A →
    collide_groups w body st keys = Ok st' → touches_only body st st'.
Proof.
  induction keys as [|k ks IH]; intros st st' A HA Hrun.
  - injection Hrun as <-. by eapply touches_only_refl.
  - rewrite collide_groups_cons in Hrun.
    destruct (collide_group w body st k) as [st1|e] eqn:Hk; [|done].
    cbn -[collide_groups] in Hrun.
    apply collide_group_touches in Hk.
    destruct (touches_only_lookup _ _ _ Hk) as [A1 HA1].
    eapply touches_only_trans; [exact Hk|]. by eapply IH.
Qed.

Lemma World_collide_touches (st : Store) (w : WorldRef) (body : BodyRef)
    (st' : Store) :
  World_collide st w body = Ok st' → touches_only body st st'.
Proof.
  unfold World_collide, get_body.
  destruct (bodyOf st !! body) as [A|] eqn:HA; [|done].
  cbn -[collide_groups]. by apply collide_groups_touches with A.
Qed.

(** X7. [World.collide body] moves nothing but [body]: every world, with
    its list of bodies and its groups, and every other body are as before,
    and of [body] itself only [position] and the scratch list [_collides]
    can differ. *)
Theorem World_collide_frame (st : Store) (w : WorldRef) (body : BodyRef)
    (st' : Store) :
  World_collide st w body = Ok st' →
  worldOf st' = worldOf st ∧
  (∀ x, x ≠ body → bodyOf st' !! x = bodyOf st !! x) ∧
  ∃ A p C, bodyOf st !! body = Some A ∧
           bodyOf st' !! body = Some (set_collides C (set_position p A)).
Proof.
  intros Hrun.
  destruct (World_collide_touches _ _ _ _ Hrun) as (Hw & Ho & Hb & _).
  split; [exact Hw|]. split; [exact Ho|exact Hb].
Qed.

(** X8. A body never collides with itself, even when it collides against
    its own group: every hit test, response and hook call that
    [World.collide body] makes is between [body] and another body. *)
Theorem World_collide_never_self (st : Store) (w : WorldRef) (body : BodyRef)
    (st' : Store) :
  World_collide st w body = Ok st' →
  ∃ evs, events st' = events st ++ evs ∧
         Forall (λ e, (event_pair e).1 = body ∧ (event_pair e).2 ≠ body) evs.
Proof.
  intros Hrun.
  destruct (World_collide_touches _ _ _ _ Hrun) as (_ & _ & _ & Hev).
  exact Hev.
Qed.

End Facts.

Section Examples.
#[local] Existing Instance sample_math.
#[local] Existing Instance default_hooks.

(** A circle of radius 5 at (3, 0), and a rectangle of width 0. *)
Definition disc : Body := Body_new (shaped (Circle (num 5)) (num 3) 0).
Definition flat : Body := Body_new (shaped (Rectangle 0 (num 10)) 0 0).

Lemma hitTest_comm_witness : hitTest square disc = hitTest disc square.
Proof. apply (hitTest_comm square disc); eexists; reflexivity. Defined.

Lemma hitTest_rectangles_witness : hitTest square square_right = Ok false.
Proof.
  rewrite (hitTest_rectangles square square_right
             (num 10) (num 10) (num 10) (num 10));
    [|vm_compute; reflexivity|vm_compute; reflexivity|discriminate
     |discriminate].
  vm_compute. reflexivity.
Defined.

Lemma hitTest_degenerate_witness :
  hitTest flat square = Ok false ∧ hitTest square flat = Ok false.
Proof.
  destruct (hitTest_degenerate flat square (num 10)) as [H1 H2].
  - left. reflexivity.
  - split; [exact H1|]. apply H2. eexists. reflexivity.
Defined.

(** The store [landing] after the response of body 1 to body 2. *)
Definition landed : Store :=
  (result_or (landing, false) (hitResponse landing 1%positive 2%positive)).1.

Lemma hitResponse_frame_witness :
  worldOf landed = worldOf landing ∧ bodyOf landed !! 2%positive = Some platform.
Proof.
  destruct (hitResponse_frame landing 1%positive 2%positive landed true)
    as (Hw & Ho & _).
  - vm_compute. reflexivity.
  - split; [exact Hw|]. rewrite Ho by done. vm_compute. reflexivity.
Defined.

(** A square and a circle that overlap. *)
Definition mixed : Store :=
  store_of [(1%positive, square); (2%positive, disc)] [].

Lemma hitResponse_mixed_witness :
  hitTest square disc = Ok true ∧
  hitResponse mixed 1%positive 2%positive = Ok (mixed, false) ∧
  hitResponse mixed 2%positive 1%positive = Ok (mixed, false).
Proof.
  split; [vm_compute; reflexivity|].
  apply (hitResponse_mixed mixed 1%positive 2%positive square disc
           (num 10) (num 10) (num 5)); vm_compute; reflexivity.
Defined.

Lemma hitResponse_separates_witness :
  ∃ A', bodyOf landed !! 1%positive = Some A' ∧
        hitTest faller platform = Ok true ∧ hitTest A' platform = Ok false.
Proof.
  destruct (hitResponse_separates landing 1%positive 2%positive faller platform
              (num 10) (num 10) (num 10) (num 10) landed)
    as (A' & HA' & _ & Hcases).
  - vm_compute. reflexivity.
  - vm_compute. reflexivity.
  - done.
  - vm_compute. reflexivity.
  - vm_compute. reflexivity.
  - vm_compute. reflexivity.
  - exists A'. split; [exact HA'|]. split; [vm_compute; reflexivity|].
    vm_compute in HA'. injection HA' as <-. vm_compute. reflexivity.
Defined.

Lemma World_collide_frame_witness :
  worldOf arena_after = worldOf arena ∧
  bodyOf arena_after !! 2%positive = bodyOf arena !! 2%positive.
Proof.
  destruct (World_collide_frame arena 1%positive 1%positive arena_after)
    as (Hw & Ho & _).
  - vm_compute. reflexivity.
  - split; [exact Hw|]. by apply Ho.
Defined.

Lemma World_collide_never_self_witness :
  ∃ evs, events arena_after = events arena ++ evs ∧
         Forall (λ e, (event_pair e).1 = 1%positive
                      ∧ (event_pair e).2 ≠ 1%positive) evs.
Proof.
  apply (World_collide_never_self arena 1%positive 1%positive arena_after).
  vm_compute. reflexivity.
Defined.

End Examples.

End Solver.

(** ** The array helpers of the physics module *)

Module Arrays.

(** How a statement on an array ends: normally, with a [RangeError] (a
    negative length), or with an array that has holes (a length beyond the
    end), which lists do not model. *)
Inductive outcome (A : Type) :=
| Done (a : A)
| RangeError
| Holes.
Arguments Done {A} a.
Arguments RangeError {A}.
Arguments Holes {A}.

Section Helpers.
Context {A : Type} `{EqDecision A}.

(** [arr.slice(start)]: a negative [start] counts from the end, and the
    result is clipped to the array. *)
Definition slice_from (arr : list A) (start : Z) : list A :=
  let len := Z.of_nat (length arr) in
  let k := if decide (start < 0)%Z then Z.max (len + start) 0
           else Z.min start len in
  drop (Z.to_nat k) arr.

(** [arr.length = n]. *)
Definition set_length (arr : list A) (n : Z) : outcome (list A) :=
  if decide (n < 0)%Z then RangeError
  else if decide (Z.of_nat (length arr) < n)%Z then Holes
  else Done (take (Z.to_nat n) arr).

(** [v || d] on an optional integer: [undefined] and [0] are falsy. *)
Definition or_else (v : option Z) (d : Z) : Z :=
  match v with
  | Some t => if decide (t = 0)%Z then d else t
  | None => d
  end.

(** [function remove(arr, from, to)]: the array after the call and the
    value returned, its new length. *)
Definition remove (arr : list A) (from : Z) (to : option Z)
  : outcome (list A * Z) :=
  let len := Z.of_nat (length arr) in
  let s := (or_else to from + 1)%Z in
  let rest := slice_from arr (if decide (s = 0)%Z then len else s) in
  match set_length arr (if decide (from < 0)%Z then len + from else from)%Z with
  | Done arr1 => Done (arr1 ++ rest, Z.of_nat (length (arr1 ++ rest)))
  | RangeError => RangeError
  | Holes => Holes
  end.

(** [arr.indexOf(obj)]. *)
Definition indexOf (arr : list A) (obj : A) : Z :=
  match list_find (λ x, x = obj) arr with
  | Some (i, _) => Z.of_nat i
  | None => -1
  end.

(** [function erase(arr, obj)]: the array after the call. *)
Definition erase (arr : list A) (obj : A) : outcome (list A) :=
  let idx := indexOf arr obj in
  if decide (idx ≠ -1)%Z then
    match remove arr idx None with
    | Done (arr1, _) => Done arr1
    | RangeError => RangeError
    | Holes => Holes
    end
  else Done arr.

Lemma remove_at (arr : list A) (from : Z) :
  (- Z.of_nat (length arr) ≤ from < Z.of_nat (length arr))%Z →
  remove arr from None
  = Done (delete (Z.to_nat (from `mod` Z.of_nat (length arr))) arr,
          (Z.of_nat (length arr) - 1)%Z).
Proof.
  intros Hrange. unfold remove, set_length, slice_from, or_else.
  set (len := Z.of_nat (length arr)) in *.
  assert (Hmod : (from `mod` len)%Z
                 = if decide (from < 0)%Z then (len + from)%Z else from).
  { destruct (decide (from < 0)%Z).
    - rewrite <- (Z.mod_add from 1 len) by lia.
      rewrite Z.mod_small; lia.
    - rewrite Z.mod_small; lia. }
  rewrite Hmod.
  set (i := if decide (from < 0)%Z then (len + from)%Z else from) in *.
  assert (Hi : (0 ≤ i < len)%Z) by (subst i; destruct (decide _); lia).
  rewrite decide_False by lia. rewrite decide_False by lia.
  assert (Hrest : drop (Z.to_nat
              (if decide ((if decide (from + 1 = 0)%Z then len else (from + 1)%Z) < 0)%Z
               then Z.max (len + (if decide (from + 1 = 0)%Z then len
                                  else (from + 1)%Z)) 0
               else Z.min (if decide (from + 1 = 0)%Z then len
                           else (from + 1)%Z) len)) arr
            = drop (S (Z.to_nat i)) arr).
  { f_equal. subst i. repeat destruct (decide _); lia. }
  rewrite Hrest, <- delete_take_drop.
  f_equal. f_equal.
  rewrite length_delete by (apply lookup_lt_is_Some_2; subst len; lia).
  subst len. lia.
Qed.

(** X9. [remove(arr, i)] with an index of the array, counted from the end
    when it is negative, deletes exactly that element and returns the new
    length. *)
Theorem remove_index (arr : list A) (from : Z) :
  (- Z.of_nat (length arr) ≤ from < Z.of_nat (length arr))%Z →
  remove arr from None
  = Done (delete (Z.to_nat (from `mod` Z.of_nat (length arr))) arr,
          (Z.of_nat (length arr) - 1)%Z).
Proof. apply remove_at. Qed.

(** X10. The bounds of [remove(arr, i)]: an index below [-arr.length]
    raises a [RangeError] (so does [remove([], -1)]), and the index
    [arr.length] removes nothing. *)
Theorem remove_bounds (arr : list A) (from : Z) :
  ((from < - Z.of_nat (length arr))%Z → remove arr from None = RangeError) ∧
  (from = Z.of_nat (length arr) →
   remove arr from None = Done (arr, Z.of_nat (length arr))).
Proof.
  unfold remove, set_length, slice_from, or_else.
  split.
  - intros Hlow. rewrite (decide_True (P := (from < 0)%Z)) by lia.
    by rewrite decide_True by lia.
  - intros ->. set (len := Z.of_nat (length arr)).
    rewrite (decide_False (P := (len < 0)%Z)) by (subst len; lia).
    rewrite (decide_False (P := (len < 0)%Z)) by (subst len; lia).
    rewrite (decide_False (P := (len < len)%Z)) by lia.
    rewrite (decide_False (P := (len + 1 = 0)%Z)) by (subst len; lia).
    rewrite (decide_False (P := (len + 1 < 0)%Z)) by (subst len; lia).
    replace (Z.to_nat (Z.min (len + 1) len)) with (length arr)
      by (subst len; lia).
    replace (Z.to_nat len) with (length arr) by (subst len; lia).
    rewrite take_ge, drop_ge, app_nil_r by done. done.
Qed.

(** X11. [remove(arr, from, to)] with [0 <= from <= to < arr.length] and
    [to] other than 0 deletes the elements from index [from] to index [to],
    both included. *)
Theorem remove_range (arr : list A) (from to : Z) :
  (0 ≤ from ≤ to)%Z → (0 < to < Z.of_nat (length arr))%Z →
  remove arr from (Some to)
  = Done (take (Z.to_nat from) arr ++ drop (S (Z.to_nat to)) arr,
          (Z.of_nat (length arr) - (to - from + 1))%Z).
Proof.
  intros Hft Hto. unfold remove, set_length, slice_from, or_else.
  set (len := Z.of_nat (length arr)) in *.
  rewrite (decide_False (P := (to = 0)%Z)) by lia.
  rewrite (decide_False (P := (to + 1 = 0)%Z)) by lia.
  rewrite (decide_False (P := (to + 1 < 0)%Z)) by lia.
  rewrite (decide_False (P := (from < 0)%Z)) by lia.
  rewrite (decide_False (P := (from < 0)%Z)) by lia.
  rewrite (decide_False (P := (len < from)%Z)) by lia.
  replace (Z.to_nat (Z.min (to + 1) len)) with (S (Z.to_nat to)) by lia.
  f_equal. f_equal.
  rewrite length_app, length_take, length_drop. subst len. lia.
Qed.

Lemma indexOf_first (l1 l2 : list A) (obj : A) :
  obj ∉ l1 → indexOf (l1 ++ obj :: l2) obj = Z.of_nat (length l1).
Proof.
  unfold indexOf. induction l1 as [|x l1 IH]; intros Hnot.
  - cbn. by rewrite decide_True.
  - cbn. apply not_elem_of_cons in Hnot as [Hne Hnot].
    rewrite decide_False by done.
    specialize (IH Hnot).
    destruct (list_find _ (l1 ++ obj :: l2)) as [[i y]|]; cbn in *; lia.
Qed.

Lemma indexOf_absent (arr : list A) (obj : A) :
  obj ∉ arr → indexOf arr obj = (-1)%Z.
Proof.
  unfold indexOf. induction arr as [|x arr IH]; intros Hnot; [done|].
  cbn. apply not_elem_of_cons in Hnot as [Hne Hnot].
  rewrite decide_False by done.
  specialize (IH Hnot).
  destruct (list_find _ arr) as [[i y]|]; cbn in *; [lia|done].
Qed.

Lemma indexOf_member (arr : list A) (obj : A) :
  obj ∈ arr → indexOf arr obj ≠ (-1)%Z.
Proof.
  intros Hin. apply list_elem_of_split_l in Hin as (l1 & l2 & -> & Hnot).
  rewrite (indexOf_first _ _ _ Hnot). lia.
Qed.

Lemma erase_absent (arr : list A) (obj : A) :
  obj ∉ arr → erase arr obj = Done arr.
Proof.
  intros Hnot. unfold erase. rewrite (indexOf_absent _ _ Hnot).
  by rewrite decide_False by lia.
Qed.

Lemma erase_split (l1 l2 : list A) (obj : A) :
  obj ∉ l1 → erase (l1 ++ obj :: l2) obj = Done (l1 ++ l2).
Proof.
  intros Hnot. unfold erase.
  rewrite (indexOf_first _ _ _ Hnot).
  rewrite decide_True by lia.
  rewrite remove_at by (rewrite length_app; cbn; lia).
  f_equal.
  rewrite Z.mod_small by (rewrite length_app; cbn; lia).
  rewrite Nat2Z.id, delete_take_drop.
  rewrite take_app_length.
  replace (S (length l1)) with (length (l1 ++ [obj]))
    by (rewrite length_app; cbn; lia).
  by rewrite (cons_middle obj l1 l2), app_assoc, drop_app_length.
Qed.

Lemma filter_ne_absent (l : list A) (obj : A) :
  obj ∉ l → filter (λ x, x ≠ obj) l = l.
Proof.
  induction l as [|x l IH]; intros Hnot; [done|].
  apply not_elem_of_cons in Hnot as [Hne Hnot].
  rewrite filter_cons_True by done. by rewrite IH.
Qed.

(** On an array without duplicates [erase] leaves the elements other than
    [obj], in their order. *)
Lemma erase_NoDup (arr : list A) (obj : A) :
  NoDup arr → erase arr obj = Done (filter (λ x, x ≠ obj) arr).
Proof.
  intros Hnd. destruct (decide (obj ∈ arr)) as [Hin|Hnot].
  - apply list_elem_of_split in Hin as (l1 & l2 & ->).
    apply NoDup_app in Hnd as (_ & Hdisj & Hnd2).
    apply NoDup_cons in Hnd2 as [Hnot2 _].
    assert (Hnot1 : obj ∉ l1).
    { intros Hin1. apply (Hdisj _ Hin1). by left. }
    rewrite (erase_split _ _ _ Hnot1).
    rewrite filter_app, filter_cons_False by (intros Hne; by apply Hne).
    by rewrite !filter_ne_absent.
  - rewrite (erase_absent _ _ Hnot). by rewrite filter_ne_absent.
Qed.

(** X12. [erase(arr, obj)] deletes the first occurrence of [obj] and
    nothing else; an array that does not contain [obj] is left as it is.
    It never raises. *)
Theorem erase_first (arr : list A) (obj : A) :
  (obj ∉ arr → erase arr obj = Done arr) ∧
  (∀ l1 l2, arr = l1 ++ obj :: l2 → obj ∉ l1 →
            erase arr obj = Done (l1 ++ l2)).
Proof.
  split; [apply erase_absent|]. intros l1 l2 -> Hnot. by apply erase_split.
Qed.

End Helpers.

Lemma remove_index_witness :
  remove [10; 20; 30]%Z (-1) None = Done ([10; 20]%Z, 2%Z).
Proof. exact (remove_index [10; 20; 30]%Z (-1) ltac:(cbn; lia)). Defined.

Lemma remove_range_witness :
  remove [10; 20; 30; 40]%Z 1 (Some 2%Z) = Done ([10; 40]%Z, 2%Z).
Proof.
  exact (remove_range [10; 20; 30; 40]%Z 1 2 ltac:(lia) ltac:(cbn; lia)).
Defined.

End Arrays.

(** ** Owners and collision groups *)

Module Membership.
Import Physics.

(** *** Field updates *)

Definition set_collisionGroup (g : option Z) (b : Body) : Body :=
  {| world := world b; shape := shape b; position := position b; last := last b;
     velocity := velocity b; velocityLimit := velocityLimit b; mass := mass b;
     collisionGroup := g; collideAgainst := collideAgainst b;
     force := force b; damping := damping b; _collides := _collides b;
     _remove := _remove b |}.

Definition set_collideAgainst (l : list Z) (b : Body) : Body :=
  {| world := world b; shape := shape b; position := position b; last := last b;
     velocity := velocity b; velocityLimit := velocityLimit b; mass := mass b;
     collisionGroup := collisionGroup b; collideAgainst := l;
     force := force b; damping := damping b; _collides := _collides b;
     _remove := _remove b |}.

Definition set_shape (s : option Shape) (b : Body) : Body :=
  {| world := world b; shape := s; position := position b; last := last b;
     velocity := velocity b; velocityLimit := velocityLimit b; mass := mass b;
     collisionGroup := collisionGroup b; collideAgainst := collideAgainst b;
     force := force b; damping := damping b; _collides := _collides b;
     _remove := _remove b |}.

Definition set_groups (g : gmap Z (list BodyRef)) (W : World) : World :=
  {| gravity := gravity W; bodies := bodies W; collisionGroups := g |}.

Definition set_bodies (l : list BodyRef) (W : World) : World :=
  {| gravity := gravity W; bodies := l; collisionGroups := collisionGroups W |}.

(** *** Operations *)

(** [World.prototype.removeBody]; it does not read [this]. *)
Definition World_removeBody (st : Store) (w : WorldRef) (body : BodyRef)
  : result Store :=
  B ← get_body st body;
  match world B with
  | None => Ok st
  | Some _ => Ok (put_body body (set_owner None true B) st)
  end.

(** [World.prototype.removeBodyCollision].  [erase] cannot raise here (see
    [Arrays.erase_first]); the model has no result for that case. *)
Definition World_removeBodyCollision (st : Store) (w : WorldRef)
    (body : BodyRef) : result Store :=
  B ← get_body st body;
  W ← get_world st w;
  match collisionGroup B with
  | None => Ok st
  | Some k =>
      match collisionGroups W !! k with
      | None => Ok st
      | Some group =>
          if decide (Arrays.indexOf group body = -1)%Z then Ok st
          else
            match Arrays.erase group body with
            | Arrays.Done group' =>
                Ok (put_world w
                      (set_groups (<[k := group']> (collisionGroups W)) W) st)
            | _ => Throw Stuck
            end
      end
  end.

(** [Body.prototype.remove] and [Body.prototype.removeCollision]. *)
Definition Body_remove (st : Store) (body : BodyRef) : result Store :=
  B ← get_body st body;
  match world B with
  | Some w => World_removeBody st w body
  | None => Ok st
  end.

Definition Body_removeCollision (st : Store) (body : BodyRef) : result Store :=
  B ← get_body st body;
  match world B with
  | Some w => World_removeBodyCollision st w body
  | None => Ok st
  end.

(** [Body.prototype.setCollisionGroup]; [group] is [None] when the argument
    is not a number. *)
Definition Body_setCollisionGroup (st : Store) (body : BodyRef)
    (group : option Z) : result Store :=
  B ← get_body st body;
  st1 ← match world B, collisionGroup B with
         | Some w, Some _ => World_removeBodyCollision st w body
         | _, _ => Ok st
         end;
  B1 ← get_body st1 body;
  let st2 := put_body body (set_collisionGroup group B1) st1 in
  match world B1 with
  | Some w => World_addBodyCollision st2 w body
  | None => Ok st2
  end.

(** [Body.prototype.setCollideAgainst] and [Body.prototype.addShape]. *)
Definition Body_setCollideAgainst (st : Store) (body : BodyRef)
    (groups : list Z) : result Store :=
  B ← get_body st body;
  Ok (put_body body (set_collideAgainst groups B) st).

Definition Body_addShape (st : Store) (body : BodyRef) (s : Shape)
  : result Store :=
  B ← get_body st body;
  Ok (put_body body (set_shape (Some s) B) st).

(** [Scene.prototype._freezePhysics], on the world of the scene:
    [this.world.bodies.length = 0]. *)
Definition Scene_freezePhysics (st : Store) (w : WorldRef) : result Store :=
  W ← get_world st w;
  Ok (put_world w (set_bodies [] W) st).

(** *** Exact results *)

Lemma addBodyCollision_result (st : Store) (w : WorldRef) (body : BodyRef)
    (B : Body) (W : World) (k : Z) :
  bodyOf st !! body = Some B → worldOf st !! w = Some W →
  collisionGroup B = Some k →
  World_addBodyCollision st w body
  = Ok (put_world w
          (set_groups
             (<[k := if decide (body ∈ default [] (collisionGroups W !! k))
                     then default [] (collisionGroups W !! k)
                     else default [] (collisionGroups W !! k) ++ [body]]>
                (collisionGroups W)) W) st).
Proof.
  intros HB HW Hk. unfold World_addBodyCollision, get_body, get_world.
  rewrite HB. cbn. rewrite HW. cbn. rewrite Hk.
  by destruct (decide _).
Qed.

Lemma removeBodyCollision_result (st : Store) (w : WorldRef) (body : BodyRef)
    (B : Body) (W : World) (k : Z) (g : list BodyRef) :
  bodyOf st !! body = Some B → worldOf st !! w = Some W →
  collisionGroup B = Some k → collisionGroups W !! k = Some g → NoDup g →
  World_removeBodyCollision st w body
  = Ok (if decide (body ∈ g)
        then put_world w
               (set_groups (<[k := filter (λ x, x ≠ body) g]> (collisionGroups W))
                  W) st
        else st).
Proof.
  intros HB HW Hk Hg Hnd. unfold World_removeBodyCollision, get_body, get_world.
  rewrite HB. cbn. rewrite HW. cbn. rewrite Hk, Hg.
  destruct (decide (body ∈ g)) as [Hin|Hnot].
  - rewrite decide_False by (by apply Arrays.indexOf_member).
    by rewrite Arrays.erase_NoDup.
  - by rewrite decide_True by (by apply Arrays.indexOf_absent).
Qed.

Lemma addBody_result (st : Store) (w : WorldRef) (body : BodyRef)
    (B : Body) (W : World) :
  bodyOf st !! body = Some B → worldOf st !! w = Some W →
  ∃ groups,
    World_addBody st w body
    = Ok {| bodyOf := <[body := set_owner (Some w) false B]> (bodyOf st);
            worldOf := <[w := {| gravity := gravity W;
                                 bodies := bodies W ++ [body];
                                 collisionGroups := groups |}]> (worldOf st);
            events := events st |} ∧
    (collisionGroup B = None → groups = collisionGroups W) ∧
    (∀ k, collisionGroup B = Some k →
          ∃ g, groups !! k = Some g ∧ body ∈ g ∧
               ∀ k', k' ≠ k → groups !! k' = collisionGroups W !! k').
Proof.
  intros HB HW. unfold World_addBody, get_body, get_world.
  rewrite HB. cbn. rewrite HW. cbn.
  destruct (collisionGroup B) as [k|] eqn:Hk.
  - erewrite addBodyCollision_result;
      [|by cbn; rewrite lookup_insert_eq|by cbn; rewrite lookup_insert_eq|done].
    cbn. eexists. split.
    { unfold put_world. cbn. by rewrite insert_insert_eq. }
    split; [done|]. intros k0 [= <-].
    eexists. rewrite lookup_insert_eq. split; [done|]. split.
    + destruct (decide _) as [Hin|_]; [done|]. apply elem_of_app. right.
      by apply list_elem_of_singleton.
    + intros k' Hk'. by rewrite lookup_insert_ne.
  - unfold World_addBodyCollision, get_body, get_world. cbn.
    rewrite !lookup_insert_eq. cbn. rewrite Hk.
    eexists. split; [done|]. split; [done|]. intros k0 [=].
Qed.

(** *** Removal *)

(** X13. [removeBody] only marks the body: it clears [world] and sets
    [_remove], and leaves the list of bodies and the groups of every world
    as they are (the body is dropped by the next [update]).  It does not
    matter which world it is called on, and a second call does nothing. *)
Theorem removeBody_deferred (st : Store) (w : WorldRef) (body : BodyRef)
    (st' : Store) :
  World_removeBody st w body = Ok st' →
  worldOf st' = worldOf st ∧
  (∀ x, x ≠ body → bodyOf st' !! x = bodyOf st !! x) ∧
  (∃ B, bodyOf st !! body = Some B ∧
        bodyOf st' !! body
        = Some (if world B is Some _ then set_owner None true B else B)) ∧
  ∀ w', World_removeBody st' w' body = Ok st'.
Proof.
  unfold World_removeBody, get_body.
  destruct (bodyOf st !! body) as [B|] eqn:HB; [|done]. cbn.
  destruct (world B) as [w0|] eqn:Hw; intros [= <-]; cbn.
  - repeat split.
    + intros x Hx. by rewrite lookup_insert_ne.
    + exists B. by rewrite lookup_insert_eq, Hw.
    + intros w'. by rewrite lookup_insert_eq.
  - repeat split.
    + exists B. by rewrite Hw.
    + intros w'. rewrite HB. cbn. by rewrite Hw.
Qed.

(** *** Collision groups *)

(** X14. [addBodyCollision] on a body with a group number [k] leaves the
    body in group [k] of the world, creating the group when there is none;
    a group without duplicates stays without duplicates (a body already in
    it is not added again), and the other groups, the list of bodies and
    the bodies themselves are untouched. *)
Theorem addBodyCollision_registers (st : Store) (w : WorldRef)
    (body : BodyRef) (B : Body) (W : World) (k : Z) (st' : Store) :
  bodyOf st !! body = Some B → worldOf st !! w = Some W →
  collisionGroup B = Some k →
  World_addBodyCollision st w body = Ok st' →
  ∃ W' g',
    worldOf st' !! w = Some W' ∧ collisionGroups W' !! k = Some g' ∧
    body ∈ g' ∧
    (NoDup (default [] (collisionGroups W !! k)) → NoDup g') ∧
    (∀ k', k' ≠ k → collisionGroups W' !! k' = collisionGroups W !! k') ∧
    bodies W' = bodies W ∧ bodyOf st' = bodyOf st.
Proof.
  intros HB HW Hk. rewrite (addBodyCollision_result _ _ _ _ _ _ HB HW Hk).
  intros [= <-]. cbn. eexists _, _. rewrite !lookup_insert_eq.
  split; [reflexivity|]. cbn. rewrite lookup_insert_eq.
  split; [reflexivity|].
  set (g := default [] (collisionGroups W !! k)).
  repeat split.
  - destruct (decide _) as [Hin|_]; [done|]. apply elem_of_app. right.
    by apply list_elem_of_singleton.
  - intros Hnd. destruct (decide _) as [Hin|Hnot]; [done|].
    apply NoDup_app. split; [done|]. split; [|apply NoDup_singleton].
    intros x Hx Hx'. apply list_elem_of_singleton in Hx'. by subst x.
  - intros k' Hk'. by rewrite lookup_insert_ne.
Qed.

(** X15. [removeBodyCollision] on a body whose group [k] exists and has no
    duplicates leaves in group [k] the other members, in their order, and
    not the body; the group stays in the index even when it is now empty.
    The other groups, the list of bodies and the bodies are untouched. *)
Theorem removeBodyCollision_unregisters (st : Store) (w : WorldRef)
    (body : BodyRef) (B : Body) (W : World) (k : Z) (g : list BodyRef)
    (st' : Store) :
  bodyOf st !! body = Some B → worldOf st !! w = Some W →
  collisionGroup B = Some k → collisionGroups W !! k = Some g → NoDup g →
  World_removeBodyCollision st w body = Ok st' →
  ∃ W',
    worldOf st' !! w = Some W' ∧
    collisionGroups W' !! k = Some (filter (λ x, x ≠ body) g) ∧
    (body ∉ filter (λ x, x ≠ body) g) ∧
    (∀ k', k' ≠ k → collisionGroups W' !! k' = collisionGroups W !! k') ∧
    bodies W' = bodies W ∧ bodyOf st' = bodyOf st.
Proof.
  intros HB HW Hk Hg Hnd.
  rewrite (removeBodyCollision_result _ _ _ _ _ _ _ HB HW Hk Hg Hnd).
  assert (Hout : body ∉ filter (λ x, x ≠ body) g).
  { intros Hin. by apply list_elem_of_filter in Hin as [Hne _]. }
  destruct (decide (body ∈ g)) as [Hin|Hnot]; intros [= <-].
  - cbn. eexists. rewrite lookup_insert_eq.
    split; [reflexivity|]. cbn. rewrite lookup_insert_eq.
    repeat split; try done. intros k' Hk'. by rewrite lookup_insert_ne.
  - exists W. rewrite Arrays.filter_ne_absent by done.
    rewrite Arrays.filter_ne_absent in Hout by done. by repeat split.
Qed.

(** X16. Registering a body in a group it is not in and unregistering it
    again gives back the members the group had, but not the index: a group
    that did not exist stays behind, empty. *)
Theorem add_remove_collision (st : Store) (w : WorldRef) (body : BodyRef)
    (B : Body) (W : World) (k : Z) :
  bodyOf st !! body = Some B → worldOf st !! w = Some W →
  collisionGroup B = Some k →
  body ∉ default [] (collisionGroups W !! k) →
  NoDup (default [] (collisionGroups W !! k)) →
  ∃ st1,
    World_addBodyCollision st w body = Ok st1 ∧
    World_removeBodyCollision st1 w body
    = Ok (put_world w
            (set_groups (<[k := default [] (collisionGroups W !! k)]>
                           (collisionGroups W)) W) st).
Proof.
  intros HB HW Hk Hnot Hnd.
  rewrite (addBodyCollision_result _ _ _ _ _ _ HB HW Hk).
  eexists. split; [done|].
  rewrite decide_False by done.
  set (g := default [] (collisionGroups W !! k)) in *.
  erewrite (removeBodyCollision_result _ w body B _ k (g ++ [body]));
    [|done|by cbn; rewrite lookup_insert_eq|done
     |by cbn; rewrite lookup_insert_eq|].
  - rewrite decide_True by (apply elem_of_app; right; by apply list_elem_of_singleton).
    unfold put_world, set_groups. cbn. f_equal. f_equal.
    rewrite !insert_insert_eq. f_equal. f_equal. f_equal.
    rewrite filter_app, Arrays.filter_ne_absent by done.
    rewrite filter_cons_False by (intros Hne; by apply Hne).
    by rewrite app_nil_r.
  - apply NoDup_app. split; [done|]. split; [|apply NoDup_singleton].
    intros x Hx Hx'. apply list_elem_of_singleton in Hx'. by subst x.
Qed.

(** X17. [setCollisionGroup(k')] on a body that belongs to a world and is
    registered in another group [k] (without duplicates) moves it: it is no
    longer in group [k], it is in group [k'], and its [collisionGroup] is
    [k']. *)
Theorem setCollisionGroup_moves (st : Store) (w : WorldRef) (body : BodyRef)
    (B : Body) (W : World) (k k' : Z) (g : list BodyRef) :
  bodyOf st !! body = Some B → world B = Some w →
  worldOf st !! w = Some W →
  collisionGroup B = Some k → collisionGroups W !! k = Some g → NoDup g →
  k' ≠ k →
  ∃ st' W' g',
    Body_setCollisionGroup st body (Some k') = Ok st' ∧
    bodyOf st' !! body = Some (set_collisionGroup (Some k') B) ∧
    worldOf st' !! w = Some W' ∧
    collisionGroups W' !! k = Some (filter (λ x, x ≠ body) g) ∧
    collisionGroups W' !! k' = Some g' ∧ body ∈ g'.
Proof.
  intros HB Hw HW Hk Hg Hnd Hne.
  unfold Body_setCollisionGroup, get_body. rewrite HB. cbn. rewrite Hw, Hk.
  rewrite (removeBodyCollision_result _ _ _ _ _ _ _ HB HW Hk Hg Hnd).
  cbn.
  set (st1 := if decide (body ∈ g) then _ else st).
  assert (HB1 : bodyOf st1 !! body = Some B) by (subst st1; by destruct (decide _)).
  assert (HW1 : ∃ W1, worldOf st1 !! w = Some W1 ∧
                      collisionGroups W1 !! k = Some (filter (λ x, x ≠ body) g) ∧
                      collisionGroups W1 !! k' = collisionGroups W !! k').
  { subst st1. destruct (decide _) as [Hin|Hnot].
    - eexists. cbn. rewrite lookup_insert_eq. split; [reflexivity|]. cbn.
      by rewrite lookup_insert_eq, lookup_insert_ne.
    - exists W. by rewrite Arrays.filter_ne_absent. }
  destruct HW1 as (W1 & HW1 & Hk1 & Hk1').
  rewrite HB1. cbn. rewrite Hw.
  erewrite (addBodyCollision_result _ w body (set_collisionGroup (Some k') B) W1 k');
    [|by cbn; rewrite lookup_insert_eq|done|done].
  eexists _, _, _. split; [reflexivity|]. cbn.
  rewrite lookup_insert_eq. split; [done|].
  rewrite lookup_insert_eq. split; [reflexivity|]. cbn.
  rewrite (lookup_insert_ne _ k' k) by done. split; [done|].
  rewrite lookup_insert_eq. split; [reflexivity|].
  destruct (decide (body ∈ default [] (collisionGroups W1 !! k')))
    as [Hin|_]; [done|].
  apply elem_of_app. right.
  by apply list_elem_of_singleton.
Qed.

(** *** Adding *)

(** X18. [addTo(world)] on a body that belongs to no world makes the world
    its owner, clears [_remove], appends the body to the list of bodies and
    registers it in the group of its [collisionGroup], if it has one; with
    no group number the groups are untouched. *)
Theorem addTo_registers (st : Store) (w : WorldRef) (body : BodyRef)
    (B : Body) (W : World) :
  bodyOf st !! body = Some B → world B = None →
  worldOf st !! w = Some W →
  ∃ st' W',
    Body_addTo st body w = Ok st' ∧
    bodyOf st' !! body = Some (set_owner (Some w) false B) ∧
    worldOf st' !! w = Some W' ∧
    bodies W' = bodies W ++ [body] ∧
    (collisionGroup B = None → collisionGroups W' = collisionGroups W) ∧
    (∀ k, collisionGroup B = Some k →
          ∃ g, collisionGroups W' !! k = Some g ∧ body ∈ g).
Proof.
  intros HB Hw HW. unfold Body_addTo, get_body. rewrite HB. cbn. rewrite Hw.
  destruct (addBody_result st w body B W HB HW) as (groups & -> & Hnone & Hsome).
  eexists _, _. split; [reflexivity|]. cbn.
  rewrite !lookup_insert_eq. split; [done|]. split; [reflexivity|]. cbn.
  split; [done|]. split; [done|].
  intros k Hk. destruct (Hsome k Hk) as (g & Hg & Hin & _). eauto.
Qed.

(** X19. Removing a body and adding it back to its world before the world
    has been updated leaves it twice in the list of bodies: [removeBody]
    does not take it out of the list, [addTo] appends it, and as [_remove]
    is cleared again the next [update] drops neither entry. *)
Theorem remove_addTo_duplicates (st : Store) (w : WorldRef) (body : BodyRef)
    (B : Body) (W : World) :
  bodyOf st !! body = Some B → world B = Some w →
  worldOf st !! w = Some W → body ∈ bodies W →
  ∃ st1 st2 W2 B2,
    Body_remove st body = Ok st1 ∧ Body_addTo st1 body w = Ok st2 ∧
    worldOf st2 !! w = Some W2 ∧ bodies W2 = bodies W ++ [body] ∧
    ¬ NoDup (bodies W2) ∧
    bodyOf st2 !! body = Some B2 ∧ _remove B2 = false ∧ world B2 = Some w.
Proof.
  intros HB Hw HW Hin.
  destruct (addBody_result (put_body body (set_owner None true B) st) w body
              (set_owner None true B) W) as (groups & Hadd & _);
    [by cbn; rewrite lookup_insert_eq|done|].
  unfold Body_remove, World_removeBody, get_body. rewrite HB. cbn.
  rewrite Hw.
  eexists. eexists. eexists. eexists. split; [reflexivity|].
  unfold Body_addTo, get_body. cbn. rewrite lookup_insert_eq. cbn.
  rewrite Hadd. split; [reflexivity|]. cbn.
  rewrite !lookup_insert_eq. split; [reflexivity|]. cbn.
  split; [done|]. split.
  - intros Hnd. apply NoDup_app in Hnd as (_ & Hdisj & _).
    apply (Hdisj _ Hin). by apply list_elem_of_singleton.
  - split; [reflexivity|]. done.
Qed.

(** *** Freezing *)

(** X20. [_freezePhysics] empties the list of bodies of the world and
    nothing else: the collision groups keep their members and every body
    keeps its owner, so [addTo] on a body that was in the world is still a
    no-op and cannot bring it back. *)
Theorem freezePhysics_keeps_owners (st : Store) (w : WorldRef) (st' : Store) :
  Scene_freezePhysics st w = Ok st' →
  (∃ W W', worldOf st !! w = Some W ∧ worldOf st' !! w = Some W' ∧
           bodies W' = [] ∧ collisionGroups W' = collisionGroups W) ∧
  bodyOf st' = bodyOf st ∧
  ∀ body B w', bodyOf st !! body = Some B → is_Some (world B) →
               Body_addTo st' body w' = Ok st'.
Proof.
  unfold Scene_freezePhysics, get_world.
  destruct (worldOf st !! w) as [W|] eqn:HW; [|done]. cbn.
  intros [= <-]. cbn. repeat split.
  - exists W. eexists. rewrite lookup_insert_eq. by repeat split.
  - intros body B w' HB [w0 Hw0]. unfold Body_addTo, get_body. cbn.
    rewrite HB. cbn. by rewrite Hw0.
Qed.

(** *** Examples *)

(** The body of [two_worlds], before and after [addTo] on world 1, and the
    worlds. *)
Definition loose : Body := Body_new (in_group 0 [] no_properties).
Definition member : Body := set_owner (Some 1%positive) false loose.
Definition empty_world : World := World_new 0 (num 980).
Definition home : World :=
  {| gravity := Vector.new 0 (num 980); bodies := [1%positive]%list;
     collisionGroups := {[ 0%Z := [1%positive]%list ]} |}.

Definition removed : Store :=
  result_or owned (World_removeBody owned 1%positive 1%positive).

Lemma removeBody_deferred_witness :
  worldOf removed = worldOf owned ∧
  World_removeBody removed 2%positive 1%positive = Ok removed.
Proof.
  destruct (removeBody_deferred owned 1%positive 1%positive removed)
    as (Hw & _ & _ & Hagain).
  - vm_compute. reflexivity.
  - split; [exact Hw|apply Hagain].
Defined.

Definition registered : Store :=
  result_or two_worlds (World_addBodyCollision two_worlds 2%positive 1%positive).

Lemma addBodyCollision_registers_witness :
  ∃ W' g', worldOf registered !! 2%positive = Some W' ∧
           collisionGroups W' !! 0%Z = Some g' ∧ 1%positive ∈ g'.
Proof.
  destruct (addBodyCollision_registers two_worlds 2%positive 1%positive loose
              empty_world 0%Z registered)
    as (W' & g' & HW' & Hg' & Hin & _); try (vm_compute; reflexivity).
  by exists W', g'.
Defined.

Definition unregistered : Store :=
  result_or owned (World_removeBodyCollision owned 1%positive 1%positive).

Lemma removeBodyCollision_unregisters_witness :
  ∃ W', worldOf unregistered !! 1%positive = Some W' ∧
        collisionGroups W' !! 0%Z = Some [] ∧ bodies W' = [1%positive]%list.
Proof.
  destruct (removeBodyCollision_unregisters owned 1%positive 1%positive member
              home 0%Z [1%positive]%list unregistered)
    as (W' & HW' & Hg' & _ & _ & Hb & _); try (vm_compute; reflexivity).
  - apply NoDup_singleton.
  - exists W'. split; [exact HW'|]. split; [exact Hg'|exact Hb].
Defined.

Lemma add_remove_collision_witness :
  ∃ st1 st2 W2,
    World_addBodyCollision two_worlds 2%positive 1%positive = Ok st1 ∧
    World_removeBodyCollision st1 2%positive 1%positive = Ok st2 ∧
    worldOf st2 !! 2%positive = Some W2 ∧
    collisionGroups empty_world !! 0%Z = None ∧
    collisionGroups W2 !! 0%Z = Some [].
Proof.
  destruct (add_remove_collision two_worlds 2%positive 1%positive loose
              empty_world 0%Z) as (st1 & Hadd & Hrem);
    try (vm_compute; reflexivity).
  - apply not_elem_of_nil.
  - apply NoDup_nil_2.
  - eexists st1, _, _. split; [exact Hadd|]. split; [exact Hrem|].
    split; [apply lookup_insert_eq|]. split; [reflexivity|].
    apply lookup_insert_eq.
Defined.

Lemma setCollisionGroup_moves_witness :
  ∃ st' W' g',
    Body_setCollisionGroup owned 1%positive (Some 5%Z) = Ok st' ∧
    worldOf st' !! 1%positive = Some W' ∧
    collisionGroups W' !! 0%Z = Some [] ∧
    collisionGroups W' !! 5%Z = Some g' ∧ 1%positive ∈ g'.
Proof.
  destruct (setCollisionGroup_moves owned 1%positive 1%positive member home
              0%Z 5%Z [1%positive]%list)
    as (st' & W' & g' & Hset & _ & HW' & H0 & H5 & Hin);
    try (vm_compute; reflexivity).
  - apply NoDup_singleton.
  - done.
  - by exists st', W', g'.
Defined.

Lemma addTo_registers_witness :
  ∃ st' W', Body_addTo two_worlds 1%positive 2%positive = Ok st' ∧
            worldOf st' !! 2%positive = Some W' ∧
            bodies W' = [1%positive]%list.
Proof.
  destruct (addTo_registers two_worlds 2%positive 1%positive loose empty_world)
    as (st' & W' & Hadd & _ & HW' & Hb & _); try (vm_compute; reflexivity).
  exists st', W'. split; [exact Hadd|]. split; [exact HW'|exact Hb].
Defined.

Lemma remove_addTo_duplicates_witness :
  ∃ st1 st2 W2,
    Body_remove owned 1%positive = Ok st1 ∧
    Body_addTo st1 1%positive 1%positive = Ok st2 ∧
    worldOf st2 !! 1%positive = Some W2 ∧
    bodies W2 = [1%positive; 1%positive].
Proof.
  destruct (remove_addTo_duplicates owned 1%positive 1%positive member home)
    as (st1 & st2 & W2 & B2 & Hrem & Hadd & HW2 & Hb & _);
    try (vm_compute; reflexivity).
  - by left.
  - exists st1, st2, W2. split; [exact Hrem|]. split; [exact Hadd|].
    split; [exact HW2|exact Hb].
Defined.

Definition frozen : Store :=
  result_or owned (Scene_freezePhysics owned 1%positive).

Lemma freezePhysics_keeps_owners_witness :
  (bodies <$> worldOf frozen !! 1%positive) = Some [] ∧
  bodyOf frozen = bodyOf owned ∧
  Body_addTo frozen 1%positive 1%positive = Ok frozen.
Proof.
  destruct (freezePhysics_keeps_owners owned 1%positive frozen)
    as (_ & Hb & Hadd).
  - vm_compute. reflexivity.
  - split; [vm_compute; reflexivity|]. split; [exact Hb|].
    apply (Hadd 1%positive member); [vm_compute; reflexivity|].
    eexists. reflexivity.
Defined.

End Membership.

(** ** The step of a world *)

Module Step.
Import Physics Membership.

(** A body marked for removal. *)
Definition flagged (st : Store) (b : BodyRef) : Prop :=
  _remove <$> bodyOf st !! b = Some true.

#[global] Instance flagged_dec (st : Store) (b : BodyRef) :
  Decision (flagged st b).
Proof. unfold flagged. apply _. Defined.

(** A body of the list [l] that is marked for removal and belongs to the
    group [k]. *)
Definition swept (st : Store) (l : list BodyRef) (k : Z) (x : BodyRef) : Prop :=
  x ∈ l ∧ flagged st x ∧ collisionGroup <$> bodyOf st !! x = Some (Some k).

#[global] Instance swept_dec (st : Store) (l : list BodyRef) (k : Z)
    (x : BodyRef) : Decision (swept st l k x).
Proof. unfold swept. apply _. Defined.

(** How often [b] occurs in [l]. *)
Definition occurrences (b : BodyRef) (l : list BodyRef) : nat :=
  length (filter (λ x, x = b) l).

(** Every group of the world lists a body at most once. *)
Definition groups_NoDup (W : World) : Prop :=
  ∀ k g, collisionGroups W !! k = Some g → NoDup g.

(** What the collisions of a step may change of a body: [position] and
    [_collides], and nothing of a body that collides against no group. *)
Definition moved (A A' : Body) : Prop :=
  (∃ p C, A' = set_collides C (set_position p A)) ∧
  (collideAgainst A = [] → A' = A).

(** From [st] to [st'] the worlds are the same and every body is [moved]. *)
Definition collided (st st' : Store) : Prop :=
  worldOf st' = worldOf st ∧
  ∀ x, option_Forall2 moved (bodyOf st !! x) (bodyOf st' !! x).

(** The groups [G'] are the groups [G] without the empty groups among
    [keys]. *)
Definition pruned (keys : list Z) (G G' : gmap Z (list BodyRef)) : Prop :=
  ∀ k, G' !! k = if decide (k ∈ keys ∧ G !! k = Some []) then None else G !! k.

(** A group number that is an array index as a property key. *)
Definition is_index (k : Z) : Prop := (0 ≤ k < 2 ^ 32 - 1)%Z.

#[global] Instance is_index_dec (k : Z) : Decision (is_index k).
Proof. unfold is_index. apply _. Defined.

(** The order in which the groups whose number is not an array index were
    created.  The index of groups does not record it, so it is a parameter:
    [creation_order l] is some arrangement of the keys [l], each once. *)
Class KeyOrder := {
  creation_order : list Z → list Z;
  creation_order_all : ∀ l, creation_order l ≡ₚ l
}.

Section Update.
Context `{M : MathLib} `{H : Hooks} `{K : KeyOrder}.

(** The first loop of [World.prototype.update],
    [for (i = this.bodies.length - 1; i >= 0; i--)], with [n = i + 1]: a
    body marked [_remove] is unregistered from its group and spliced out
    of [bodies], any other body is integrated. *)
Fixpoint update_bodies (st : Store) (w : WorldRef) (delta : Qc) (n : nat)
  : result Store :=
  match n with
  | O => Ok st
  | S i =>
      W ← get_world st w;
      match bodies W !! i with
      | None => Throw TypeError
      | Some b =>
          B ← get_body st b;
          st1 ← (if _remove B then
                   st' ← World_removeBodyCollision st w b;
                   W' ← get_world st' w;
                   Ok (put_world w (set_bodies (delete i (bodies W')) W') st')
                 else Body_update st b delta);
          update_bodies st1 w delta i
      end
  end.

(** The loop over the members of the group [key],
    [for (j = group.length - 1; j >= 0; j--)], with [n = j + 1]; the group
    is read from the world at every iteration. *)
Fixpoint collide_members (st : Store) (w : WorldRef) (key : Z) (n : nat)
  : result Store :=
  match n with
  | O => Ok st
  | S j =>
      W ← get_world st w;
      match collisionGroups W !! key with
      | None => Throw TypeError
      | Some group =>
          st1 ← match group !! j with
                 | None => Ok st
                 | Some b =>
                     B ← get_body st b;
                     if decide (collideAgainst B = []) then Ok st
                     else World_collide st w b
                 end;
          collide_members st1 w key j
      end
  end.

(** The body of the loop [for (i in this.collisionGroups)]: an empty group
    is deleted, the members of any other group collide. *)
Definition update_group (w : WorldRef) (st : Store) (key : Z) : result Store :=
  W ← get_world st w;
  match collisionGroups W !! key with
  | None => Throw TypeError
  | Some group =>
      if decide (group = [])
      then Ok (put_world w (set_groups (delete key (collisionGroups W)) W) st)
      else collide_members st w key (length group)
  end.

(** The keys a [for ... in] loop visits, in its order: every key of the
    index once, first the group numbers that are array indices
    ([0 <= k < 2^32 - 1]) in ascending order, then the other numbers in the
    order in which their groups were created. *)
Definition for_in_keys (groups : gmap Z (list BodyRef)) : list Z :=
  let keys := elements (dom groups) in
  merge_sort Z.le (filter is_index keys)
  ++ creation_order (filter (λ k, ¬ is_index k) keys).

(** [World.prototype.update], with [Timer.delta] as the argument
    [timerDelta]. *)
Definition World_update (st : Store) (w : WorldRef) (timerDelta : Qc)
  : result Store :=
  let delta := timerDelta / num 1000 in
  W ← get_world st w;
  st1 ← update_bodies st w delta (length (bodies W));
  W1 ← get_world st1 w;
  foldl (λ acc key, st' ← acc; update_group w st' key) (Ok st1)
    (for_in_keys (collisionGroups W1)).

(** [n] calls of [Body.prototype.update] on the body value, one after the
    other. *)
Fixpoint integrate_n (st : Store) (delta : Qc) (n : nat) (B : Body)
  : result Body :=
  match n with
  | O => Ok B
  | S n' => B1 ← integrate st B delta; integrate_n st delta n' B1
  end.

(** *** The first loop *)

Lemma filter_all {A : Type} (P : A → Prop) `{!∀ x, Decision (P x)}
    (l : list A) :
  (∀ x, x ∈ l → P x) → filter P l = l.
Proof.
  induction l as [|x l IH]; intros Hall; [done|].
  rewrite filter_cons_True by (apply Hall; by left).
  rewrite IH; [done|]. intros y Hy. apply Hall. by right.
Qed.

Lemma removeBodyCollision_frame (st : Store) (w : WorldRef) (b : BodyRef)
    (st' : Store) (W : World) :
  worldOf st !! w = Some W →
  World_removeBodyCollision st w b = Ok st' →
  bodyOf st' = bodyOf st ∧ events st' = events st ∧
  (∀ w2, w2 ≠ w → worldOf st' !! w2 = worldOf st !! w2) ∧
  ∃ W', worldOf st' !! w = Some W' ∧ bodies W' = bodies W ∧
        gravity W' = gravity W ∧
        (groups_NoDup W →
         ∀ k, collisionGroups W' !! k
              = filter (λ x, ¬ (x = b ∧
                                collisionGroup <$> bodyOf st !! b = Some (Some k)))
                  <$> collisionGroups W !! k).
Proof.
  intros HW. unfold World_removeBodyCollision, get_body, get_world.
  destruct (bodyOf st !! b) as [B|] eqn:HB; [|done]. cbn. rewrite HW. cbn.
  assert (Hsame : ∀ st0, st0 = st →
    (∀ k g, collisionGroup B = Some k → collisionGroups W !! k = Some g →
            b ∉ g) →
    bodyOf st0 = bodyOf st ∧ events st0 = events st ∧
    (∀ w2, w2 ≠ w → worldOf st0 !! w2 = worldOf st !! w2) ∧
    ∃ W', worldOf st0 !! w = Some W' ∧ bodies W' = bodies W ∧
          gravity W' = gravity W ∧
          (groups_NoDup W →
           ∀ k, collisionGroups W' !! k
                = filter (λ x, ¬ (x = b ∧ Some (collisionGroup B) = Some (Some k)))
                    <$> collisionGroups W !! k)).
  { intros st0 -> Habs. repeat split; try done. exists W.
    repeat split; try done. intros _ k.
    destruct (collisionGroups W !! k) as [g|] eqn:Hg; [|done]. cbn. f_equal.
    symmetry. apply filter_all. intros x Hx [-> [= Hk]].
    by apply (Habs k g). }
  destruct (collisionGroup B) as [k0|] eqn:Hk0.
  2:{ intros [= <-]. apply Hsame; [done|]. by intros k g [=]. }
  destruct (collisionGroups W !! k0) as [g0|] eqn:Hg0.
  2:{ intros [= <-]. apply Hsame; [done|]. intros k g [= <-]. congruence. }
  destruct (decide (Arrays.indexOf g0 b = -1)%Z) as [Hidx|Hidx].
  { intros [= <-]. apply Hsame; [done|]. intros k g [= <-] Hg Hin.
    assert (g = g0) as -> by congruence.
    by apply Arrays.indexOf_member in Hin. }
  destruct (Arrays.erase g0 b) as [g1| |] eqn:Herase; try done.
  intros [= <-]. cbn. repeat split; try done.
  - intros w2 Hw2. by rewrite lookup_insert_ne.
  - eexists. rewrite lookup_insert_eq. split; [done|]. cbn.
    repeat split; try done. intros Hnd k.
    rewrite (Arrays.erase_NoDup g0 b (Hnd _ _ Hg0)) in Herase.
    injection Herase as <-.
    destruct (decide (k = k0)) as [->|Hne].
    + rewrite lookup_insert_eq, Hg0. cbn. f_equal.
      apply list_filter_iff. intros x. split.
      * intros Hne [Hx _]. by apply Hne.
      * intros Hn Hx. by apply Hn.
    + rewrite lookup_insert_ne by done.
      destruct (collisionGroups W !! k) as [g|] eqn:Hg; [|done]. cbn. f_equal.
      symmetry. apply filter_all. intros x _ [_ [= Hk]]. congruence.
Qed.

Lemma integrate_tags (st : Store) (B : Body) (delta : Qc) (B' : Body) :
  integrate st B delta = Ok B' →
  _remove B' = _remove B ∧ collisionGroup B' = collisionGroup B ∧
  collideAgainst B' = collideAgainst B.
Proof.
  unfold integrate.
  destruct (velocity_before_clamp st B delta) as [v|]; [|done]. cbn.
  by intros [= <-].
Qed.

Lemma integrate_worlds (st1 st : Store) (B : Body) (delta : Qc) :
  (∀ w2, gravity <$> worldOf st1 !! w2 = gravity <$> worldOf st !! w2) →
  integrate st1 B delta = integrate st B delta.
Proof.
  intros Hg. unfold integrate, velocity_before_clamp, get_world.
  destruct (decide (mass B ≠ 0)); [|done].
  destruct (world B) as [w2|]; [|done]. specialize (Hg w2).
  destruct (worldOf st1 !! w2), (worldOf st !! w2); cbn in *; try done.
  injection Hg as Hg. by rewrite Hg.
Qed.

Lemma integrate_n_worlds (st1 st : Store) (delta : Qc) (n : nat) (B : Body) :
  (∀ w2, gravity <$> worldOf st1 !! w2 = gravity <$> worldOf st !! w2) →
  integrate_n st1 delta n B = integrate_n st delta n B.
Proof.
  intros Hg. revert B. induction n as [|n IH]; intros B; [done|]. cbn.
  rewrite (integrate_worlds st1 st) by done.
  destruct (integrate st B delta) as [B1|]; [|done]. cbn. apply IH.
Qed.

Lemma integrate_n_tags (st : Store) (delta : Qc) (n : nat) (B B' : Body) :
  integrate_n st delta n B = Ok B' →
  _remove B' = _remove B ∧ collisionGroup B' = collisionGroup B ∧
  collideAgainst B' = collideAgainst B.
Proof.
  revert B. induction n as [|n IH]; intros B; cbn.
  - by intros [= <-].
  - destruct (integrate st B delta) as [B1|] eqn:HB1; [|done]. cbn.
    intros Hn. destruct (IH _ Hn) as (-> & -> & ->).
    by apply integrate_tags in HB1.
Qed.

Lemma occurrences_snoc (x b : BodyRef) (l : list BodyRef) :
  occurrences x (l ++ [b]%list)
  = (occurrences x l + if decide (b = x) then 1 else 0)%nat.
Proof.
  unfold occurrences. rewrite filter_app, length_app. f_equal.
  rewrite filter_cons. by destruct (decide (b = x)).
Qed.

Lemma update_bodies_spec (w : WorldRef) (delta : Qc) (n : nat) :
  ∀ st st' W,
  worldOf st !! w = Some W →
  update_bodies st w delta n = Ok st' →
  events st' = events st ∧
  (∀ w2, w2 ≠ w → worldOf st' !! w2 = worldOf st !! w2) ∧
  (∃ W', worldOf st' !! w = Some W' ∧ gravity W' = gravity W ∧
         bodies W'
         = filter (λ b, ¬ flagged st b) (take n (bodies W)) ++ drop n (bodies W) ∧
         (groups_NoDup W →
          ∀ k, collisionGroups W' !! k
               = filter (λ x, ¬ swept st (take n (bodies W)) k x)
                   <$> collisionGroups W !! k)) ∧
  (∀ x, match bodyOf st !! x with
        | Some B =>
            ∃ B', bodyOf st' !! x = Some B' ∧
                  if _remove B then B' = B
                  else integrate_n st delta (occurrences x (take n (bodies W))) B
                       = Ok B'
        | None => bodyOf st' !! x = None
        end).
Proof.
  induction n as [|i IH]; intros st st' W HW.
  - cbn. intros [= <-]. split; [done|]. split; [done|]. split.
    + exists W. split; [done|]. split; [done|]. split; [done|].
      intros _ k. destruct (collisionGroups W !! k) as [g|]; [|done]. cbn.
      f_equal. symmetry. apply filter_all. intros x _ (Hin & _).
      by apply elem_of_nil in Hin.
    + intros x. destruct (bodyOf st !! x) as [B|]; [|done]. exists B.
      split; [done|]. by destruct (_remove B).
  - cbn -[World_removeBodyCollision Body_update]. unfold get_world.
    rewrite HW. cbn -[World_removeBodyCollision Body_update].
    destruct (bodies W !! i) as [b|] eqn:Hb; [|done].
    unfold get_body.
    destruct (bodyOf st !! b) as [B|] eqn:HB; [|done].
    cbn -[World_removeBodyCollision Body_update].
    assert (Hlen : (i < length (bodies W))%nat) by (by eapply lookup_lt_Some).
    destruct (_remove B) eqn:Hrm.
    + destruct (World_removeBodyCollision st w b) as [sa|] eqn:Hrbc; [|done].
      cbn. destruct (removeBodyCollision_frame _ _ _ _ _ HW Hrbc)
        as (Hbo & Hev & Hother & Wa & HWa & Hbodies & Hgrav & Hgroups).
      rewrite HWa. cbn. intros Hrun.
      set (W1 := set_bodies (delete i (bodies Wa)) Wa) in *.
      set (st1 := put_world w W1 sa) in *.
      assert (HW1 : worldOf st1 !! w = Some W1)
        by (subst st1; cbn; by rewrite lookup_insert_eq).
      assert (Hbo1 : bodyOf st1 = bodyOf st) by exact Hbo.
      destruct (IH _ _ _ HW1 Hrun)
        as (Hev' & Hother' & (W' & HW' & Hgrav' & Hbod' & Hgroups') & Hstates).
      assert (Htake : take i (bodies W1) = take i (bodies W)).
      { subst W1. cbn. rewrite Hbodies, delete_take_drop.
        apply take_app_length'. rewrite length_take. lia. }
      assert (Hdrop : drop i (bodies W1) = drop (S i) (bodies W)).
      { subst W1. cbn. rewrite Hbodies, delete_take_drop.
        apply drop_app_length'. rewrite length_take. lia. }
      rewrite Htake in Hbod', Hgroups', Hstates. rewrite Hdrop in Hbod'.
      assert (Hflag : ∀ x, flagged st1 x ↔ flagged st x)
        by (intros x; unfold flagged; by rewrite Hbo1).
      assert (Hfb : flagged st b)
        by (unfold flagged; rewrite HB; cbn; by rewrite Hrm).
      rewrite (take_S_r _ _ _ Hb).
      split; [rewrite Hev'; exact Hev|]. split.
      { intros w2 Hw2. rewrite Hother' by done. subst st1. cbn.
        rewrite lookup_insert_ne by done. by apply Hother. }
      split.
      { exists W'. split; [done|]. split; [subst W1; cbn in Hgrav'; congruence|].
        split.
        - rewrite Hbod', filter_app, (filter_cons_False _ b) by (by intros Hn).
          rewrite filter_nil, app_nil_r. f_equal.
          apply list_filter_iff. intros x. by rewrite Hflag.
        - intros Hnd k. rewrite Hgroups'.
          2:{ intros k' g' Hg'. subst W1. cbn in Hg'.
              rewrite (Hgroups Hnd) in Hg'.
              destruct (collisionGroups W !! k') as [g0|] eqn:Hg0; [|done].
              cbn in Hg'. injection Hg' as <-. apply NoDup_filter.
              by apply (Hnd k'). }
          subst W1. cbn. rewrite (Hgroups Hnd).
          destruct (collisionGroups W !! k) as [g|]; [|done]. cbn. f_equal.
          rewrite list_filter_filter. apply list_filter_iff. intros x.
          unfold swept. rewrite Hflag, Hbo1, elem_of_app, list_elem_of_singleton.
          split.
          + intros [H1 H2] ([Hin| ->] & Hf & Hc); [by apply H1|by apply H2].
          + intros Hn. split.
            * intros (Hin & Hf & Hc). apply Hn. auto.
            * intros [-> Hc]. apply Hn. auto. }
      intros x. specialize (Hstates x). rewrite Hbo1 in Hstates.
      destruct (bodyOf st !! x) as [Bx|] eqn:HBx; [|done].
      destruct Hstates as (B' & HB' & Hres). exists B'. split; [done|].
      destruct (_remove Bx) eqn:Hrx; [done|].
      rewrite occurrences_snoc, decide_False by (intros ->; congruence).
      rewrite Nat.add_0_r, <- Hres. symmetry. apply integrate_n_worlds.
      intros w2. destruct (decide (w2 = w)) as [->|Hw2].
      * rewrite HW1, HW. cbn. subst W1. cbn. congruence.
      * rewrite <- (Hother w2) by done. subst st1. cbn.
        by rewrite lookup_insert_ne.
    + destruct (Body_update st b delta) as [st1|] eqn:Hup; [|done]. cbn.
      intros Hrun. unfold Body_update, get_body in Hup. rewrite HB in Hup.
      cbn -[integrate] in Hup.
      destruct (integrate st B delta) as [B1|] eqn:HB1; [|done].
      cbn -[integrate] in Hup. injection Hup as <-.
      destruct (integrate_tags _ _ _ _ HB1) as (Hrm1 & Hcg1 & _).
      set (st1 := put_body b B1 st) in *.
      assert (HW1 : worldOf st1 !! w = Some W) by exact HW.
      destruct (IH _ _ _ HW1 Hrun)
        as (Hev' & Hother' & (W' & HW' & Hgrav' & Hbod' & Hgroups') & Hstates).
      assert (Hflag : ∀ x, flagged st1 x ↔ flagged st x).
      { intros x. unfold flagged. subst st1. cbn.
        destruct (decide (x = b)) as [->|Hx].
        - rewrite lookup_insert_eq, HB. cbn. by rewrite Hrm1.
        - by rewrite lookup_insert_ne. }
      assert (Hcg : ∀ x, collisionGroup <$> bodyOf st1 !! x
                         = collisionGroup <$> bodyOf st !! x).
      { intros x. subst st1. cbn.
        destruct (decide (x = b)) as [->|Hx].
        - rewrite lookup_insert_eq, HB. cbn. by rewrite Hcg1.
        - by rewrite lookup_insert_ne. }
      assert (Hfb : ¬ flagged st b)
        by (unfold flagged; rewrite HB; cbn; by rewrite Hrm).
      rewrite (take_S_r _ _ _ Hb).
      split; [done|]. split; [done|]. split.
      { exists W'. split; [done|]. split; [done|]. split.
        - rewrite Hbod', filter_app, (filter_cons_True _ b) by done.
          rewrite filter_nil, <- app_assoc. cbn.
          rewrite (drop_S _ _ _ Hb). f_equal.
          apply list_filter_iff. intros x. by rewrite Hflag.
        - intros Hnd k. rewrite (Hgroups' Hnd).
          destruct (collisionGroups W !! k) as [g|]; [|done]. cbn. f_equal.
          apply list_filter_iff. intros x.
          unfold swept. rewrite Hflag, Hcg, elem_of_app, list_elem_of_singleton.
          split.
          + intros Hn ([Hin| ->] & Hf & Hc); [apply Hn; auto|done].
          + intros Hn (Hin & Hf & Hc). apply Hn. auto. }
      intros x. specialize (Hstates x). subst st1. cbn in Hstates.
      destruct (decide (x = b)) as [->|Hx].
      * rewrite lookup_insert_eq in Hstates. rewrite HB.
        destruct Hstates as (B' & HB' & Hres). exists B'. split; [done|].
        rewrite Hrm1, Hrm in *.
        rewrite occurrences_snoc, decide_True, Nat.add_1_r by done.
        cbn -[integrate]. rewrite HB1. cbn -[integrate].
        rewrite <- Hres. symmetry. by apply integrate_n_worlds.
      * rewrite lookup_insert_ne in Hstates by done.
        destruct (bodyOf st !! x) as [Bx|] eqn:HBx; [|done].
        destruct Hstates as (B' & HB' & Hres). exists B'. split; [done|].
        destruct (_remove Bx); [done|].
        rewrite occurrences_snoc, decide_False, Nat.add_0_r by done.
        rewrite <- Hres. symmetry. by apply integrate_n_worlds.
Qed.

(** *** The second loop *)

Lemma moved_refl (A : Body) : moved A A.
Proof.
  split; [|done]. exists (position A), (_collides A). by destruct A.
Qed.

Lemma moved_trans (A1 A2 A3 : Body) : moved A1 A2 → moved A2 A3 → moved A1 A3.
Proof.
  intros [(p1 & C1 & ->) Hid1] [(p2 & C2 & ->) Hid2]. split.
  - by exists p2, C2.
  - intros Hnil. rewrite Hid2; [by apply Hid1|]. exact Hnil.
Qed.

Lemma collided_refl (st : Store) : collided st st.
Proof.
  split; [done|]. intros x. destruct (bodyOf st !! x); constructor.
  apply moved_refl.
Qed.

Lemma collided_trans (st1 st2 st3 : Store) :
  collided st1 st2 → collided st2 st3 → collided st1 st3.
Proof.
  intros [Hw1 Hb1] [Hw2 Hb2]. split; [congruence|]. intros x.
  specialize (Hb1 x). specialize (Hb2 x).
  destruct Hb1 as [A1 A2 H12|]; inversion Hb2; subst; constructor.
  by apply moved_trans with A2.
Qed.

Lemma touches_collided (b : BodyRef) (st st' : Store) (B : Body) :
  bodyOf st !! b = Some B → collideAgainst B ≠ [] →
  Solver.touches_only b st st' → collided st st'.
Proof.
  intros HB Hne (Hw & Ho & (A & p & C & HA & HA') & _). split; [done|].
  intros x. destruct (decide (x = b)) as [->|Hx].
  - rewrite HA, HA'. constructor. split; [by exists p, C|].
    intros Hnil. congruence.
  - rewrite (Ho x Hx). destruct (bodyOf st !! x); constructor. apply moved_refl.
Qed.

Lemma collide_members_spec (w : WorldRef) (key : Z) (n : nat) :
  ∀ st st', collide_members st w key n = Ok st' → collided st st'.
Proof.
  induction n as [|j IH]; intros st st'; cbn -[World_collide].
  - intros [= <-]. apply collided_refl.
  - unfold get_world. destruct (worldOf st !! w) as [W|]; [|done].
    cbn -[World_collide].
    destruct (collisionGroups W !! key) as [group|]; [|done].
    destruct (group !! j) as [b|]; cbn -[World_collide]; [|apply IH].
    unfold get_body. destruct (bodyOf st !! b) as [B|] eqn:HB; [|done].
    cbn -[World_collide].
    destruct (decide (collideAgainst B = [])) as [Hnil|Hne];
      cbn -[World_collide]; [apply IH|].
    destruct (World_collide st w b) as [st1|] eqn:Hcol; [|done].
    cbn -[World_collide]. intros Hrun.
    apply collided_trans with st1; [|by apply IH].
    apply (touches_collided b _ _ B HB Hne).
    by apply Solver.World_collide_touches with w.
Qed.

Lemma update_group_spec (w : WorldRef) (st : Store) (key : Z) (st' : Store)
    (W : World) :
  worldOf st !! w = Some W →
  update_group w st key = Ok st' →
  (∀ x, option_Forall2 moved (bodyOf st !! x) (bodyOf st' !! x)) ∧
  (∀ w2, w2 ≠ w → worldOf st' !! w2 = worldOf st !! w2) ∧
  ∃ W', worldOf st' !! w = Some W' ∧ gravity W' = gravity W ∧
        bodies W' = bodies W ∧
        pruned [key]%list (collisionGroups W) (collisionGroups W').
Proof.
  intros HW. unfold update_group, get_world. rewrite HW. cbn.
  destruct (collisionGroups W !! key) as [group|] eqn:Hg; [|done].
  destruct (decide (group = [])) as [->|Hne].
  - intros [= <-]. cbn. split; [apply collided_refl|]. split.
    + intros w2 Hw2. by rewrite lookup_insert_ne.
    + eexists. rewrite lookup_insert_eq. split; [done|]. cbn.
      split; [done|]. split; [done|]. intros k.
      destruct (decide (k = key)) as [->|Hk].
      * rewrite lookup_delete_eq, decide_True; [done|].
        split; [by apply list_elem_of_singleton|done].
      * rewrite lookup_delete_ne by done. rewrite decide_False; [done|].
        intros [Hin _]. by apply list_elem_of_singleton in Hin.
  - intros Hrun. apply collide_members_spec in Hrun as [Hw Hb].
    split; [done|]. split; [intros; by rewrite Hw|].
    exists W. rewrite Hw. split; [done|]. split; [done|]. split; [done|].
    intros k. rewrite decide_False; [done|].
    intros [Hin Hnil]. apply list_elem_of_singleton in Hin as ->. congruence.
Qed.

Lemma update_groups_throw (w : WorldRef) (keys : list Z) (e : Error) :
  foldl (λ acc key, st' ← acc; update_group w st' key) (Throw e) keys = Throw e.
Proof. induction keys as [|k ks IH]; [done|]. cbn. apply IH. Qed.

Lemma update_groups_spec (w : WorldRef) (keys : list Z) :
  ∀ st st' W,
  worldOf st !! w = Some W →
  foldl (λ acc key, st' ← acc; update_group w st' key) (Ok st) keys = Ok st' →
  (∀ x, option_Forall2 moved (bodyOf st !! x) (bodyOf st' !! x)) ∧
  (∀ w2, w2 ≠ w → worldOf st' !! w2 = worldOf st !! w2) ∧
  ∃ W', worldOf st' !! w = Some W' ∧ gravity W' = gravity W ∧
        bodies W' = bodies W ∧
        pruned keys (collisionGroups W) (collisionGroups W').
Proof.
  induction keys as [|key ks IH]; intros st st' W HW.
  - cbn. intros [= <-]. split; [apply collided_refl|]. split; [done|].
    exists W. repeat split; done.
  - cbn -[update_group].
    destruct (update_group w st key) as [st1|e] eqn:Hstep;
      [|by rewrite update_groups_throw].
    intros Hrun.
    destruct (update_group_spec _ _ _ _ _ HW Hstep)
      as (Hb1 & Ho1 & W1 & HW1 & Hg1 & Hbd1 & Hp1).
    destruct (IH _ _ _ HW1 Hrun) as (Hb2 & Ho2 & W2 & HW2 & Hg2 & Hbd2 & Hp2).
    split.
    { intros x. eapply (option_Forall2_trans moved);
        [exact moved_trans|apply Hb1|apply Hb2]. }
    split; [intros w2 Hw2; by rewrite Ho2, Ho1|].
    exists W2. split; [done|]. split; [congruence|]. split; [congruence|].
    intros k. rewrite (Hp2 k), (Hp1 k).
    destruct (decide (k = key)) as [->|Hk].
    + destruct (decide (collisionGroups W !! key = Some [])) as [Hnil|Hne].
      * rewrite (decide_True (P := key ∈ [key]%list ∧ _))
          by (split; [by apply list_elem_of_singleton|done]).
        rewrite decide_False by (by intros [_ ?]).
        rewrite decide_True; [done|]. split; [by left|done].
      * rewrite (decide_False (P := key ∈ [key]%list ∧ _)) by (by intros [_ ?]).
        rewrite decide_False by (by intros [_ ?]).
        rewrite decide_False by (by intros [_ ?]). done.
    + rewrite (decide_False (P := k ∈ [key]%list ∧ _)).
      2:{ intros [Hin _]. by apply list_elem_of_singleton in Hin. }
      apply decide_ext. rewrite elem_of_cons. split.
      * intros [Hin Hnil]. auto.
      * intros [[Heq|Hin] Hnil]; [done|auto].
Qed.

Lemma for_in_keys_spec (G : gmap Z (list BodyRef)) (k : Z) :
  k ∈ for_in_keys G ↔ is_Some (G !! k).
Proof.
  unfold for_in_keys.
  rewrite merge_sort_Permutation, creation_order_all, filter_app_complement.
  by rewrite elem_of_elements, elem_of_dom.
Qed.

(** What [World.prototype.update] leaves behind, when it returns. *)
Lemma World_update_spec (st : Store) (w : WorldRef) (timerDelta : Qc)
    (st' : Store) (W : World) :
  worldOf st !! w = Some W →
  World_update st w timerDelta = Ok st' →
  (∀ w2, w2 ≠ w → worldOf st' !! w2 = worldOf st !! w2) ∧
  (∃ W', worldOf st' !! w = Some W' ∧ gravity W' = gravity W ∧
         bodies W' = filter (λ b, ¬ flagged st b) (bodies W) ∧
         (∀ k g, collisionGroups W' !! k = Some g → g ≠ []) ∧
         (groups_NoDup W →
          ∀ k, collisionGroups W' !! k
               = match filter (λ x, ¬ swept st (bodies W) k x)
                         <$> collisionGroups W !! k with
                 | Some [] => None
                 | o => o
                 end)) ∧
  (∀ x, match bodyOf st !! x with
        | Some B =>
            ∃ B1 B', (if _remove B then B1 = B
                      else integrate_n st (timerDelta / num 1000)
                             (occurrences x (bodies W)) B = Ok B1) ∧
                     bodyOf st' !! x = Some B' ∧ moved B1 B'
        | None => bodyOf st' !! x = None
        end).
Proof.
  intros HW. unfold World_update, get_world. rewrite HW.
  cbn -[update_bodies for_in_keys update_group].
  destruct (update_bodies st w (timerDelta / num 1000) (length (bodies W)))
    as [st1|] eqn:Hloop1; [|done].
  cbn -[update_bodies for_in_keys update_group].
  destruct (update_bodies_spec _ _ _ _ _ _ HW Hloop1)
    as (_ & Ho1 & (W1 & HW1 & Hg1 & Hbd1 & Hgr1) & Hst1).
  rewrite firstn_all, drop_all, app_nil_r in Hbd1.
  rewrite firstn_all in Hgr1, Hst1.
  rewrite HW1. cbn -[update_bodies for_in_keys update_group].
  intros Hloop2.
  destruct (update_groups_spec _ _ _ _ _ HW1 Hloop2)
    as (Hb2 & Ho2 & W2 & HW2 & Hg2 & Hbd2 & Hp2).
  split; [intros w2 Hw2; by rewrite Ho2, Ho1|]. split.
  - exists W2. split; [done|]. split; [congruence|]. split; [congruence|].
    split.
    + intros k g Hg ->. rewrite (Hp2 k) in Hg.
      destruct (decide (k ∈ for_in_keys (collisionGroups W1)
                        ∧ collisionGroups W1 !! k = Some [])) as [|Hn];
        [done|].
      apply Hn. split; [|done]. apply for_in_keys_spec. by rewrite Hg.
    + intros Hnd k. rewrite (Hp2 k), <- (Hgr1 Hnd k).
      destruct (collisionGroups W1 !! k) as [[|y g]|] eqn:Hk.
      * rewrite decide_True; [done|]. split; [|done].
        apply for_in_keys_spec. by rewrite Hk.
      * by rewrite decide_False by (by intros [_ ?]).
      * by rewrite decide_False by (by intros [_ ?]).
  - intros x. specialize (Hst1 x). specialize (Hb2 x).
    destruct (bodyOf st !! x) as [B|].
    + destruct Hst1 as (B1 & HB1 & Hres). rewrite HB1 in Hb2.
      inversion Hb2 as [? B' Hmoved|]; subst. exists B1, B'. done.
    + rewrite Hst1 in Hb2. by inversion Hb2.
Qed.

(** X21. An [update] that returns drops from the list of bodies exactly
    the entries whose body is marked [_remove] and keeps the others in
    their order, whatever their [world] says; the gravity of the world and
    every other world are as before.  This and the next three hold for any
    group numbers and any order of creation of the groups. *)
Theorem World_update_sweeps (st : Store) (w : WorldRef) (timerDelta : Qc)
    (st' : Store) (W : World) :
  worldOf st !! w = Some W →
  World_update st w timerDelta = Ok st' →
  (∃ W', worldOf st' !! w = Some W' ∧ gravity W' = gravity W ∧
         bodies W' = filter (λ b, ¬ flagged st b) (bodies W)) ∧
  ∀ w2, w2 ≠ w → worldOf st' !! w2 = worldOf st !! w2.
Proof.
  intros HW Hrun.
  destruct (World_update_spec _ _ _ _ _ HW Hrun)
    as (Ho & (W' & HW' & Hg & Hb & _) & _).
  split; [by exists W'|exact Ho].
Qed.

(** X22. After an [update] that returns no group of the world is empty:
    the groups that are empty once the marked bodies are erased, the
    groups left empty by [removeBodyCollision] included, are deleted from
    the index. *)
Theorem World_update_prunes (st : Store) (w : WorldRef) (timerDelta : Qc)
    (st' : Store) :
  World_update st w timerDelta = Ok st' →
  ∃ W', worldOf st' !! w = Some W' ∧
        ∀ k g, collisionGroups W' !! k = Some g → g ≠ [].
Proof.
  intros Hrun. destruct (worldOf st !! w) as [W|] eqn:HW.
  - destruct (World_update_spec _ _ _ _ _ HW Hrun)
      as (_ & (W' & HW' & _ & _ & Hne & _) & _).
    by exists W'.
  - unfold World_update, get_world in Hrun. by rewrite HW in Hrun.
Qed.

(** X23. The groups after an [update] that returns, when no group lists a
    body twice: each group has lost the bodies that were in the list of
    bodies, marked [_remove] and carrying the number of that group; the
    other members keep their order; a group left without members is gone. *)
Theorem World_update_groups (st : Store) (w : WorldRef) (timerDelta : Qc)
    (st' : Store) (W : World) :
  worldOf st !! w = Some W → groups_NoDup W →
  World_update st w timerDelta = Ok st' →
  ∃ W', worldOf st' !! w = Some W' ∧
        ∀ k, collisionGroups W' !! k
             = match filter (λ x, ¬ swept st (bodies W) k x)
                       <$> collisionGroups W !! k with
               | Some [] => None
               | o => o
               end.
Proof.
  intros HW Hnd Hrun.
  destruct (World_update_spec _ _ _ _ _ HW Hrun)
    as (_ & (W' & HW' & _ & _ & _ & Hgroups) & _).
  exists W'. split; [done|]. by apply Hgroups.
Qed.

(** X24. What an [update] that returns does to a body: a body marked
    [_remove] is not integrated; any other body is integrated with
    [Timer.delta / 1000] once for each time it occurs in the list of bodies
    (not at all when it is not in the list); after that the collisions
    change at most [position] and [_collides], and nothing of a body that
    collides against no group. *)
Theorem World_update_integrates (st : Store) (w : WorldRef) (timerDelta : Qc)
    (st' : Store) (W : World) (x : BodyRef) (B : Body) :
  worldOf st !! w = Some W →
  World_update st w timerDelta = Ok st' →
  bodyOf st !! x = Some B →
  ∃ B1 B', (if _remove B then B1 = B
            else integrate_n st (timerDelta / num 1000)
                   (occurrences x (bodies W)) B = Ok B1) ∧
           bodyOf st' !! x = Some B' ∧ moved B1 B'.
Proof.
  intros HW Hrun HB.
  destruct (World_update_spec _ _ _ _ _ HW Hrun) as (_ & _ & Hst).
  specialize (Hst x). by rewrite HB in Hst.
Qed.

End Update.

(** An order of creation: the keys as they are listed. *)
Definition as_listed : KeyOrder :=
  {| creation_order := λ l, l; creation_order_all := λ l, reflexivity l |}.

Section Examples.
#[local] Existing Instance sample_math.
#[local] Existing Instance default_hooks.
#[local] Existing Instance as_listed.

(** World 1 with two bodies: body 1, of mass 1, in group 0, and body 2, in
    group -1, which has been removed and waits for the next [update]. *)
Definition scene0 : Store :=
  store_of [(1%positive, Body_new (in_group 0 [] (moving 0 0 None 1)));
            (2%positive, Body_new (in_group (-1) [] no_properties))]
    [(1%positive, World_new 0 (num 980))].
Definition scene : Store :=
  result_or scene0
    (st1 ← Body_addTo scene0 1%positive 1%positive;
     st2 ← Body_addTo st1 2%positive 1%positive;
     Body_remove st2 2%positive).
Definition scene_world : World :=
  {| gravity := Vector.new 0 (num 980);
     bodies := [1%positive; 2%positive];
     collisionGroups :=
       {[ 0%Z := [1%positive]%list; (-1)%Z := [2%positive]%list ]} |}.
Definition weight : Body :=
  set_owner (Some 1%positive) false (Body_new (in_group 0 [] (moving 0 0 None 1))).
Definition stepped : Store :=
  result_or scene (World_update scene 1%positive (num 16)).

Lemma World_update_sweeps_witness :
  ∃ W', worldOf stepped !! 1%positive = Some W' ∧
        bodies W' = [1%positive]%list.
Proof.
  destruct (World_update_sweeps scene 1%positive (num 16) stepped scene_world)
    as [(W' & HW' & _ & Hb) _].
  - vm_compute. reflexivity.
  - vm_compute. reflexivity.
  - exists W'. split; [exact HW'|]. rewrite Hb. vm_compute. reflexivity.
Defined.

Lemma World_update_prunes_witness :
  collisionGroups scene_world !! (-1)%Z = Some [2%positive]%list ∧
  ∃ W', worldOf stepped !! 1%positive = Some W' ∧
        ∀ k g, collisionGroups W' !! k = Some g → g ≠ [].
Proof.
  split; [vm_compute; reflexivity|].
  apply (World_update_prunes scene 1%positive (num 16) stepped).
  vm_compute. reflexivity.
Defined.

Lemma World_update_groups_witness :
  ∃ W', worldOf stepped !! 1%positive = Some W' ∧
        collisionGroups W' !! 0%Z = Some [1%positive]%list ∧
        collisionGroups W' !! (-1)%Z = None.
Proof.
  destruct (World_update_groups scene 1%positive (num 16) stepped scene_world)
    as (W' & HW' & Hgroups).
  - vm_compute. reflexivity.
  - apply (bool_decide_unpack
             (map_Forall (λ _ g, NoDup g) (collisionGroups scene_world))).
    vm_compute. exact I.
  - vm_compute. reflexivity.
  - exists W'. split; [exact HW'|]. rewrite !Hgroups.
    split; vm_compute; reflexivity.
Defined.

Lemma World_update_integrates_witness :
  ∃ B', integrate scene weight (num 16 / num 1000) = Ok B' ∧
        bodyOf stepped !! 1%positive = Some B'.
Proof.
  destruct (World_update_integrates scene 1%positive (num 16) stepped
              scene_world 1%positive weight)
    as (B1 & B' & Hint & HB' & _ & Hsame).
  - vm_compute. reflexivity.
  - vm_compute. reflexivity.
  - vm_compute. reflexivity.
  - vm_compute in Hint. injection Hint as <-.
    exists B'. split; [|exact HB'].
    rewrite (Hsame eq_refl). vm_compute. reflexivity.
Defined.
End Examples.

End Step.
